(* ====================================================================== *)
(*  benchmark.py of einsteinpy: Christoffel symbols with two symbolic      *)
(*  back ends (SymPy and SymEngine), a timing decorator and a driver.      *)
(*                                                                        *)
(*  The Python code is embedded shallowly:                                *)
(*   - exceptions are a result type, statements are sequenced with Let;   *)
(*   - Python lists are seq, indexing raises IndexError out of range;     *)
(*   - the two computer-algebra systems are not part of the repository:   *)
(*     a [backend] record lists the operations the code calls on them,    *)
(*     and [sound] states what the proofs assume of them, relative to a   *)
(*     field V of mathematical values with one derivation per symbol;     *)
(*   - time.time and print act on an explicit World.                      *)
(* ====================================================================== *)
From HB Require Import structures.
From mathcomp Require Import boot algebra.
From Stdlib Require Import PrimFloat String.

Set Implicit Arguments.
Unset Strict Implicit.
Unset Printing Implicit Defensive.

Import GRing.Theory.
Local Open Scope ring_scope.

(* ---------------------------------------------------------------------- *)
(** * Python values, exceptions, sequencing                                *)
(* ---------------------------------------------------------------------- *)

(** The exceptions the program can meet.  [NonSquareMatrixError] and
    [NonInvertibleMatrixError] are the names SymPy gives to the two ways
    [Matrix.inv] rejects its argument; the back ends written out below
    raise them too. *)
Variant exception :=
  | IndexError
  | ValueError
  | ShapeError
  | NonSquareMatrixError
  | NonInvertibleMatrixError.

Variant result (A : Type) :=
  | Ok of A
  | Raise of exception.

Arguments Ok {A} _.
Arguments Raise {A} _.

Definition bind (A B : Type) (m : result A) (f : A -> result B) : result B :=
  match m with
  | Ok a => f a
  | Raise e => Raise e
  end.

Declare Scope py_scope.
Delimit Scope py_scope with py.
Notation "'Let' x ':=' m 'in' body" := (bind m (fun x => body))
  (x name, at level 200, m at level 100, body at level 200,
   right associativity) : py_scope.
Local Open Scope py_scope.

(** [for x in xs: acc = body x acc], stopping at the first exception. *)
Fixpoint for_each (A S : Type) (body : A -> S -> result S)
    (xs : seq A) (acc : S) : result S :=
  match xs with
  | [::] => Ok acc
  | x :: xs' => Let acc' := body x acc in for_each body xs' acc'
  end.

(** A cell of a Python list in this program: a Python [int], or an
    expression object of a computer-algebra system. *)
Variant pyval (E : Type) :=
  | PyInt of int
  | PyExpr of E.

Arguments PyInt {E} _.
Arguments PyExpr {E} _.

(** [s[i]] for a non-negative index. *)
Fixpoint getitem (T : Type) (s : seq T) (i : nat) : result T :=
  match s, i with
  | [::], _ => Raise IndexError
  | x :: _, 0%N => Ok x
  | _ :: s', i'.+1 => getitem s' i'
  end.

(** [s[i] = v] for a non-negative index. *)
Fixpoint setitem (T : Type) (s : seq T) (i : nat) (v : T) : result (seq T) :=
  match s, i with
  | [::], _ => Raise IndexError
  | _ :: s', 0%N => Ok (v :: s')
  | x :: s', i'.+1 => Let s'' := setitem s' i' v in Ok (x :: s'')
  end.

(** [m[i][j]] on a nested list, and [m[i, j]] on a matrix object, whose
    entries are kept as the list of its rows. *)
Definition getitem2 (T : Type) (m : seq (seq T)) (i j : nat) : result T :=
  Let row := getitem m i in getitem row j.

(** [c[i][j][k] = v] on a triply nested list. *)
Definition setitem3 (T : Type) (c : seq (seq (seq T))) (i j k : nat) (v : T)
    : result (seq (seq (seq T))) :=
  Let ci := getitem c i in
  Let cij := getitem ci j in
  Let cij' := setitem cij k v in
  Let ci' := setitem ci j cij' in
  setitem c i ci'.

(** [np.zeros(shape=(d, d, d), dtype=int).tolist()]: fresh nested lists of
    the Python int 0. *)
Definition zeros3 (E : Type) (d : nat) : seq (seq (seq (pyval E))) :=
  nseq d (nseq d (nseq d (PyInt 0))).

(* ---------------------------------------------------------------------- *)
(** * The index enumeration of both loops                                  *)
(* ---------------------------------------------------------------------- *)

(** [int(t / dims)]: the true quotient of two non-negative ints, truncated.
    Python rounds the quotient of two ints correctly, so below 2^53 the
    truncation is the floor quotient; a list of [dims ** 3] counters that
    long cannot be built, and the embedding uses the floor quotient. *)
Definition int_div (t d : nat) : nat := (t %/ d)%N.

(** [_counterlist = [i for i in range(dims ** 3)]]. *)
Definition _counterlist (dims : nat) : seq nat := iota 0 (dims ^ 3).

(** Lines 47-49: the triple (i, j, k) the loops read off the counter t. *)
Definition index_k (dims t : nat) : nat := (t %% dims)%N.
Definition index_j (dims t : nat) : nat := (int_div t dims %% dims)%N.
Definition index_i (dims t : nat) : nat := (int_div t (dims ^ 2) %% dims)%N.

Definition triple (dims t : nat) : nat * nat * nat :=
  (index_i dims t, index_j dims t, index_k dims t).

(** The position of a triple in the enumeration. *)
Definition counter (dims : nat) (ijk : nat * nat * nat) : nat :=
  ((ijk.1.1 * dims + ijk.1.2) * dims + ijk.2)%N.

(* ---------------------------------------------------------------------- *)
(** * The computer-algebra back ends                                       *)
(* ---------------------------------------------------------------------- *)

(** What [christoffels_reference] and [christoffels_symengine] call on the
    module they compute with ([sympy], [symengine]).  [Sym] is the type of
    SymPy expressions, in which the caller writes the metric; [E] is the
    type of the module's own expressions.  A cell of the metric is a Python
    int or a SymPy expression, and each module converts what it is handed
    with its [sympify]; the arithmetic of the loop is the module's
    [__add__], [__sub__], [__mul__] and [__truediv__].  A matrix object is
    kept as the list of its rows. *)
Record backend (symbol Sym E : Type) := Backend {
  sympify : pyval Sym -> E;
  Matrix : seq (seq (pyval Sym)) -> result (seq (seq E));
  inv : seq (seq E) -> result (seq (seq E));
  diff : pyval Sym -> symbol -> E;
  add : E -> E -> E;
  sub : E -> E -> E;
  mul : E -> E -> E;
  truediv : E -> E -> E
}.

(** The part of SymPy the driver uses besides: [symbols], a Symbol used as
    an expression, [**] with an int exponent, [sin]; and [cos], in which
    the closed form of the spherical example is written. *)
Record sympy_module (symbol Sym : Type) := SympyModule {
  core :> backend symbol Sym Sym;
  symbols : string -> seq symbol;
  as_expr : symbol -> Sym;
  pow : Sym -> int -> Sym;
  sin : Sym -> Sym;
  cos : Sym -> Sym
}.

Section Engine.

Variables (symbol Sym E : Type) (K : backend symbol Sym E).

(** What is stored in the result: [temp] itself on the reference path,
    [sympy.S(temp)] on the SymEngine path. *)
Variable store : pyval E -> pyval Sym.

(** [temp += x]: [temp] is the Python int 0 before the first addition and
    an expression of the module afterwards. *)
Definition iadd (temp : pyval E) (x : E) : pyval E :=
  match temp with
  | PyInt z => PyExpr (add K (sympify K (PyInt z)) x)
  | PyExpr e => PyExpr (add K e x)
  end.

(** Lines 52-56 (75-79): the value added to [temp] for one [n], with the
    subscripts evaluated in the order Python evaluates them. *)
Definition summand (mat_inv : seq (seq E)) (list2d : seq (seq (pyval Sym)))
    (syms : seq symbol) (i j k n : nat) : result E :=
  Let a := getitem2 mat_inv i n in
  Let g_nj := getitem2 list2d n j in
  Let s_k := getitem syms k in
  Let g_nk := getitem2 list2d n k in
  Let s_j := getitem syms j in
  Let g_jk := getitem2 list2d j k in
  Let s_n := getitem syms n in
  Ok (mul K (truediv K a (sympify K (PyInt 2)))
        (sub K (add K (diff K g_nj s_k) (diff K g_nk s_j)) (diff K g_jk s_n))).

(** Lines 50-56 (73-79): [temp = 0; for n in range(dims): temp += ...]. *)
Definition entry (mat_inv : seq (seq E)) (list2d : seq (seq (pyval Sym)))
    (syms : seq symbol) (i j k : nat) : result (pyval E) :=
  let dims := size syms in
  for_each
    (fun n temp => Let x := summand mat_inv list2d syms i j k n in
                   Ok (iadd temp x))
    (iota 0 dims) (PyInt 0).

(** One turn of the loop over [_counterlist]. *)
Definition loop_body (mat_inv : seq (seq E)) (list2d : seq (seq (pyval Sym)))
    (syms : seq symbol) (t : nat) (christlist : seq (seq (seq (pyval Sym))))
    : result (seq (seq (seq (pyval Sym)))) :=
  let dims := size syms in
  let k := index_k dims t in
  let j := index_j dims t in
  let i := index_i dims t in
  Let temp := entry mat_inv list2d syms i j k in
  setitem3 christlist i j k (store temp).

(** The body the two functions share, line for line. *)
Definition christoffels (list2d : seq (seq (pyval Sym))) (syms : seq symbol)
    : result (seq (seq (seq (pyval Sym)))) :=
  let dims := size syms in
  let christlist := zeros3 Sym dims in
  Let mat := Matrix K list2d in
  Let mat_inv := inv K mat in
  for_each (loop_body mat_inv list2d syms) (_counterlist dims) christlist.

End Engine.

(* ---------------------------------------------------------------------- *)
(** * The world: clock and standard output                                 *)
(* ---------------------------------------------------------------------- *)

(** What [print] receives in [function_timer]: the template and the two
    fields [msg.format] fills in. *)
Record report := Report {
  template : string;
  func : string;
  time : float
}.

(** [time.time()] reads a wall clock, one reading per call. *)
Record World := mkWorld {
  ticks : nat;
  wall_clock : nat -> float;
  stdout : seq report
}.

Definition prog (A : Type) : Type := World -> result A * World.

Definition pure (A : Type) (r : result A) : prog A := fun w => (r, w).

Definition time_time (w : World) : float * World :=
  (wall_clock w (ticks w), mkWorld (ticks w).+1 (wall_clock w) (stdout w)).

Definition print (line : report) (w : World) : World :=
  mkWorld (ticks w) (wall_clock w) (rcons (stdout w) line).

(** A Python function object: its [__name__] and what a call does;
    [args] stands for the positional and keyword arguments together. *)
Record pyfunc (A B : Type) := PyFunc {
  __name__ : string;
  call : A -> prog B
}.

Definition msg : string :=
  "The runtime for {func} took {time} seconds to complete"%string.

(** Lines 23-34. An exception of [func] leaves [function_timer] at line
    28: there is no [try]. *)
Definition function_timer (A B : Type) (func : pyfunc A B) (args : A) : prog B :=
  fun w =>
    let: (start, w1) := time_time w in
    match call func args w1 with
    | (Ok value, w2) =>
        let: (end_, w3) := time_time w2 in
        let runtime := PrimFloat.sub end_ start in
        let w4 := print (Report msg (__name__ func) runtime) w3 in
        (Ok value, w4)
    | (Raise e, w2) => (Raise e, w2)
    end.

(** Lines 22-35. *)
Definition timeit (A B : Type) (func : pyfunc A B) : pyfunc A B :=
  PyFunc "function_timer"%string (function_timer func).

(* ---------------------------------------------------------------------- *)
(** * The two decorated functions and the driver                           *)
(* ---------------------------------------------------------------------- *)

Section Program.

Variables (symbol Sym SE : Type).
Variable sympy : sympy_module symbol Sym.
Variable symengine : backend symbol Sym SE.

(** [sympy.S]: SymPy's conversion of a foreign object, here of what
    [temp] holds on the SymEngine path. *)
Variable sympy_S : pyval SE -> Sym.

Definition tensor : Type := seq (seq (seq (pyval Sym))).
Definition arguments : Type := (seq (seq (pyval Sym)) * seq symbol)%type.

(** Lines 37-58. *)
Definition christoffels_reference : pyfunc arguments tensor :=
  timeit (PyFunc "christoffels_reference"%string
            (fun args => pure (christoffels sympy id args.1 args.2))).

(** Lines 60-82. *)
Definition christoffels_symengine : pyfunc arguments tensor :=
  timeit (PyFunc "christoffels_symengine"%string
            (fun args =>
               pure (christoffels symengine (fun temp => PyExpr (sympy_S temp))
                       args.1 args.2))).

(** Lines 88-91: the metric of the driver, written with the coordinate
    symbols [syms]. *)
Definition spherical_metric (syms : seq symbol) : result (seq (seq (pyval Sym))) :=
  Let r := getitem syms 0 in
  Let theta := getitem syms 1 in
  let g11 := pow sympy (as_expr sympy r) 2 in
  let g22 := mul sympy (pow sympy (as_expr sympy r) 2)
                       (pow sympy (sin sympy (as_expr sympy theta)) 2) in
  Ok [:: [:: PyInt 1; PyInt 0; PyInt 0];
         [:: PyInt 0; PyExpr g11; PyInt 0];
         [:: PyInt 0; PyInt 0; PyExpr g22]].

(** Lines 85-93; the two locals are returned so that they can be read. *)
Definition main : prog (tensor * tensor) := fun w =>
  let syms := symbols sympy "r theta phi"%string in
  match spherical_metric syms with
  | Raise e => (Raise e, w)
  | Ok metric =>
      match call christoffels_reference (metric, syms) w with
      | (Raise e, w1) => (Raise e, w1)
      | (Ok ch_reference, w1) =>
          match call christoffels_symengine (metric, syms) w1 with
          | (Raise e, w2) => (Raise e, w2)
          | (Ok ch_symengine, w2) => (Ok (ch_reference, ch_symengine), w2)
          end
      end
  end.

End Program.

(* ---------------------------------------------------------------------- *)
(** * Reading and describing the result                                    *)
(* ---------------------------------------------------------------------- *)

(** [c[i][j][k]]. *)
Definition getitem3 (T : Type) (c : seq (seq (seq T))) (i j k : nat) : result T :=
  Let ci := getitem c i in
  Let cij := getitem ci j in
  getitem cij k.

(** A nested list of shape d x d x d. *)
Definition cubic (T : Type) (d : nat) (c : seq (seq (seq T))) : bool :=
  (size c == d)
  && all (fun plane => (size plane == d) && all (fun row => size row == d) plane) c.

(** A nested list of shape n x n. *)
Definition square (T : Type) (n : nat) (m : seq (seq T)) : bool :=
  (size m == n) && all (fun row => size row == n) m.

(** A cell that holds an expression object, not a Python int. *)
Definition is_expr (E : Type) (v : pyval E) : bool :=
  if v is PyExpr _ then true else false.

(** The list [c] with [c[i][j][k]] replaced, and a cell of [c] read with
    a default; both are used in range only. *)
Definition upd (T : Type) (c : seq (seq (seq T))) (i j k : nat) (v : T) :=
  let ci := nth [::] c i in
  let cij := nth [::] ci j in
  set_nth [::] c i (set_nth [::] ci j (set_nth v cij k v)).

Definition cell (T : Type) (x0 : T) (c : seq (seq (seq T))) (i j k : nat) : T :=
  nth x0 (nth [::] (nth [::] c i) j) k.

Section Summand.

Variables (symbol Sym E : Type) (K : backend symbol Sym E).

(** The expression [summand] returns when all its subscripts are in
    range, and the value [entry] then leaves in [temp]. *)
Definition term (mat_inv : seq (seq E)) (list2d : seq (seq (pyval Sym)))
    (syms : seq symbol) (s0 : symbol) (i j k n : nat) : E :=
  let e0 := sympify K (PyInt 0) in
  let g a b := nth (PyInt 0) (nth [::] list2d a) b in
  let s a := nth s0 syms a in
  mul K (truediv K (nth e0 (nth [::] mat_inv i) n) (sympify K (PyInt 2)))
    (sub K (add K (diff K (g n j) (s k)) (diff K (g n k) (s j)))
           (diff K (g j k) (s n))).

Definition total (mat_inv : seq (seq E)) (list2d : seq (seq (pyval Sym)))
    (syms : seq symbol) (s0 : symbol) (i j k : nat) : pyval E :=
  foldl (fun temp n => iadd K temp (term mat_inv list2d syms s0 i j k n))
        (PyInt 0) (iota 0 (size syms)).

End Summand.

(* ---------------------------------------------------------------------- *)
(** * What the proofs assume of a back end                                 *)
(* ---------------------------------------------------------------------- *)

Section Semantics.

(** Expressions denote elements of a field [V]; [D x] is the partial
    derivative with respect to the symbol [x]. *)
Variables (symbol Sym : Type) (V : fieldType).
Variable D : symbol -> V -> V.

(** The value of a cell: of a Python int, or of an expression. *)
Definition value_of (E : Type) (den : E -> V) (a : pyval E) : V :=
  match a with
  | PyInt z => z%:~R
  | PyExpr e => den e
  end.

(** The values of a table of cells, read with indices. *)
Definition values (T : Type) (val : T -> V) (m : seq (seq T)) (a b : nat) : V :=
  nth 0 [seq val x | x <- nth [::] m a] b.

(** [h] is an inverse of the n x n matrix [g]. *)
Definition is_inverse (n : nat) (g h : nat -> nat -> V) : Prop :=
  forall a c, (a < n)%N -> (c < n)%N ->
    \sum_(0 <= b < n) g a b * h b c = (a == c)%:R.

Definition invertible (n : nat) (g : nat -> nat -> V) : Prop :=
  exists h, is_inverse n g h.

(** The formula for the entry (i, j, k), as the specification writes it:
    the sum over n below d of (h[i][n] / 2) times
    d g[n][j] / d s[k] + d g[n][k] / d s[j] - d g[j][k] / d s[n],
    for the metric [g], an inverse [h] of it and the symbols [s]. *)
Definition christoffel_sum (d : nat) (g h : nat -> nat -> V)
    (s : nat -> symbol) (i j k : nat) : V :=
  \sum_(0 <= n < d)
     h i n / 2%:R * (D (s k) (g n j) + D (s j) (g n k) - D (s n) (g j k)).

(** [V] has derivations and 2 is not 0 in it. *)
Record calculus : Prop := Calculus {
  two_neq0 : 2%:R != 0 :> V;
  D_add : forall x u v, D x (u + v) = D x u + D x v;
  D_mul : forall x u v, D x (u * v) = D x u * v + u * D x v
}.

Variable denS : Sym -> V.

(** The back end [K] computes what its operations mean: conversion and
    arithmetic preserve values, [diff] is the derivative, [Matrix] keeps
    shape and values and accepts every square table, and [inv] returns an
    inverse when the matrix is square and has one, and returns nothing but
    an inverse.  What [inv] raises is left open. *)
Record sound (E : Type) (K : backend symbol Sym E) (den : E -> V) : Prop := Sound {
  den_sympify : forall a, den (sympify K a) = value_of denS a;
  den_add : forall a b, den (add K a b) = den a + den b;
  den_sub : forall a b, den (sub K a b) = den a - den b;
  den_mul : forall a b, den (mul K a b) = den a * den b;
  den_truediv : forall a b, den b != 0 -> den (truediv K a b) = den a / den b;
  den_diff : forall a x, den (diff K a x) = D x (value_of denS a);
  Matrix_values : forall m M, Matrix K m = Ok M ->
    [seq [seq den e | e <- row] | row <- M]
    = [seq [seq value_of denS a | a <- row] | row <- m];
  Matrix_square : forall m, square (size m) m -> exists M, Matrix K m = Ok M;
  inv_inverse : forall M M', inv K M = Ok M' ->
    [/\ square (size M) M, square (size M) M' &
        is_inverse (size M) (values den M) (values den M')];
  inv_invertible : forall M, square (size M) M ->
    invertible (size M) (values den M) -> exists M', inv K M = Ok M'
}.

(** What the closed form of the spherical example rests on: the three
    symbols [symbols] returns, squares, and the derivatives of r and of
    sin(theta), neither of which is 0. *)
Record spherical_chart (sympy : sympy_module symbol Sym) (r theta phi : symbol)
    : Prop := SphericalChart {
  symbols_names : symbols sympy "r theta phi"%string = [:: r; theta; phi];
  den_square : forall e, denS (pow sympy e 2) = denS e ^+ 2;
  r_neq0 : denS (as_expr sympy r) != 0;
  sin_neq0 : denS (sin sympy (as_expr sympy theta)) != 0;
  D_r_r : D r (denS (as_expr sympy r)) = 1;
  D_theta_r : D theta (denS (as_expr sympy r)) = 0;
  D_phi_r : D phi (denS (as_expr sympy r)) = 0;
  D_r_sin : D r (denS (sin sympy (as_expr sympy theta))) = 0;
  D_theta_sin : D theta (denS (sin sympy (as_expr sympy theta)))
                = denS (cos sympy (as_expr sympy theta));
  D_phi_sin : D phi (denS (sin sympy (as_expr sympy theta))) = 0
}.

End Semantics.

(* ---------------------------------------------------------------------- *)
(** * Vocabulary of the statements                                         *)
(* ---------------------------------------------------------------------- *)

(** A call returns [v], or raises [e]. *)
Definition returns (A B : Type) (f : pyfunc A B) (args : A) (w : World) (v : B)
    : Prop :=
  (call f args w).1 = Ok v.

Definition raises (A B : Type) (f : pyfunc A B) (args : A) (w : World)
    (e : exception) : Prop :=
  (call f args w).1 = Raise e.

(** The value of [c[i][j][k]]. *)
Definition entry_value (Sym : Type) (V : fieldType) (denS : Sym -> V)
    (c : seq (seq (seq (pyval Sym)))) (i j k : nat) : result V :=
  Let v := getitem3 c i j k in Ok (value_of denS v).

(** The closed form of the spherical example, as the specification lists
    it, in r, sin(theta) and cos(theta). *)
Definition spherical_closed_form (V : fieldType) (r sin_theta cos_theta : V)
    (i j k : nat) : V :=
  match i, j, k with
  | 0%N, 1%N, 1%N => - r
  | 1%N, 0%N, 1%N | 1%N, 1%N, 0%N => r^-1
  | 0%N, 2%N, 2%N => - r * sin_theta ^+ 2
  | 2%N, 0%N, 2%N | 2%N, 2%N, 0%N => r^-1
  | 1%N, 2%N, 2%N => - sin_theta * cos_theta
  | 2%N, 1%N, 2%N | 2%N, 2%N, 1%N => cos_theta / sin_theta
  | _, _, _ => 0
  end.

(* ---------------------------------------------------------------------- *)
(** * A back end that meets the assumptions                                *)
(* ---------------------------------------------------------------------- *)

(** The assumptions above are met by a small computer-algebra system of
    its own: expressions are rational functions over the rationals in
    five indeterminates, which stand for r, theta, phi, sin(theta) and
    cos(theta); the derivative with respect to theta sends sin(theta) to
    cos(theta) and cos(theta) to -sin(theta).  The statements are
    instantiated with it. *)

Local Open Scope quotient_scope.

(** The derivation of a field of fractions that extends [d]: the quotient
    rule on a representative. *)
Definition frac_der (R : idomainType) (d : R -> R) (x : {fraction R})
    : {fraction R} :=
  let f := repr x in
  tofrac (d \n_f * \d_f - \n_f * d \d_f) / tofrac (\d_f ^+ 2).

Module Model.

Variant coordinate := Cr | Ctheta | Cphi.

Notation P1 := {poly rat}.
Notation P2 := {poly P1}.
Notation P3 := {poly P2}.
Notation P4 := {poly P3}.
Notation P5 := {poly P4}.

(** The indeterminates, from the innermost to the outermost. *)
Definition X_cos : P5 := (((('X : P1)%:P : P2)%:P : P3)%:P : P4)%:P.
Definition X_sin : P5 := ((('X : P2)%:P : P3)%:P : P4)%:P.
Definition X_phi : P5 := (('X : P3)%:P : P4)%:P.
Definition X_theta : P5 := ('X : P4)%:P.
Definition X_r : P5 := 'X.

(** The partial derivatives with respect to each indeterminate. *)
Definition d_r (p : P5) : P5 := p^`().
Definition d_theta (p : P5) : P5 := map_poly (@deriv P3) p.
Definition d_phi (p : P5) : P5 := map_poly (map_poly (@deriv P2)) p.
Definition d_sin (p : P5) : P5 := map_poly (map_poly (map_poly (@deriv P1))) p.
Definition d_cos (p : P5) : P5 :=
  map_poly (map_poly (map_poly (map_poly (@deriv rat)))) p.

(** d/d theta, with sin(theta) and cos(theta) depending on theta. *)
Definition d_angle (p : P5) : P5 :=
  d_theta p + X_cos * d_sin p - X_sin * d_cos p.

Definition expression : fieldType := {fraction P5}.

Definition partial (x : coordinate) : expression -> expression :=
  frac_der (match x with Cr => d_r | Ctheta => d_angle | Cphi => d_phi end).

Definition of_coordinate (x : coordinate) : expression :=
  tofrac (match x with Cr => X_r | Ctheta => X_theta | Cphi => X_phi end).

Definition convert (a : pyval expression) : expression :=
  match a with
  | PyInt z => z%:~R
  | PyExpr e => e
  end.

(** A matrix is built from a table whose rows have one length. *)
Definition build (m : seq (seq (pyval expression)))
    : result (seq (seq expression)) :=
  if all (fun row => size row == size (head [::] m)) m
  then Ok [seq [seq convert a | a <- row] | row <- m]
  else Raise ValueError.

Definition to_mx (n : nat) (M : seq (seq expression)) : 'M[expression]_n :=
  \matrix_(a, b) nth 0 (nth [::] M a) b.

Definition mx_entry (n : nat) (A : 'M[expression]_n) (a b : nat) : expression :=
  match insub a, insub b with
  | Some i, Some j => A i j
  | _, _ => 0
  end.

Definition of_mx (n : nat) (A : 'M[expression]_n) : seq (seq expression) :=
  mkseq (fun a => mkseq (fun b => mx_entry A a b) n) n.

(** Inversion: of square matrices only, by the inverse of the matrix
    library when the matrix is a unit. *)
Definition invert (M : seq (seq expression)) : result (seq (seq expression)) :=
  let n := size M in
  if ~~ square n M then Raise NonSquareMatrixError
  else if to_mx n M \in unitmx then Ok (of_mx (invmx (to_mx n M)))
  else Raise NonInvertibleMatrixError.

Definition kernel : backend coordinate expression expression :=
  Backend convert build invert
    (fun a x => partial x (convert a))
    (fun a b => a + b) (fun a b => a - b) (fun a b => a * b)
    (fun a b => a / b).

(** sin and cos are known at the coordinate theta, which is all the
    driver asks for. *)
Definition sympy : sympy_module coordinate expression :=
  SympyModule kernel
    (fun names => if String.eqb names "r theta phi" then [:: Cr; Ctheta; Cphi]
                  else [::])
    of_coordinate
    (fun e z => e ^ z)
    (fun e => if e == of_coordinate Ctheta then tofrac X_sin else 0)
    (fun e => if e == of_coordinate Ctheta then tofrac X_cos else 0).

(** The second back end keeps its expressions in a type of its own. *)
Variant fast_expression := Fast of expression.

Definition slow (e : fast_expression) : expression := let: Fast v := e in v.

Definition symengine : backend coordinate expression fast_expression :=
  Backend (fun a => Fast (convert a))
    (fun m => Let M := build m in Ok [seq [seq Fast e | e <- row] | row <- M])
    (fun M => Let M' := invert [seq [seq slow e | e <- row] | row <- M] in
              Ok [seq [seq Fast e | e <- row] | row <- M'])
    (fun a x => Fast (partial x (convert a)))
    (fun a b => Fast (slow a + slow b)) (fun a b => Fast (slow a - slow b))
    (fun a b => Fast (slow a * slow b)) (fun a b => Fast (slow a / slow b)).

Definition sympy_S (temp : pyval fast_expression) : expression :=
  match temp with
  | PyInt z => z%:~R
  | PyExpr e => slow e
  end.

(** Inversion by the cofactor formula, adj(M) / det(M), without a look at
    the determinant; in this field a quotient by 0 is 0. *)
Definition cofactor_inverse (M : seq (seq expression))
    : result (seq (seq expression)) :=
  let n := size M in
  if ~~ square n M then Raise NonSquareMatrixError
  else Ok (of_mx ((\det (to_mx n M))^-1 *: \adj (to_mx n M))).

(** The second back end with that inversion in the place of its own. *)
Definition unchecked : backend coordinate expression fast_expression :=
  Backend (sympify symengine) (Matrix symengine)
    (fun M =>
       Let M' := cofactor_inverse [seq [seq slow e | e <- row] | row <- M] in
       Ok [seq [seq Fast e | e <- row] | row <- M'])
    (diff symengine) (add symengine) (sub symengine) (mul symengine)
    (truediv symengine).

(** Inputs: the coordinates and the metric of the driver, the identity
    and a matrix with a row of zeros, both of size 2, and a matrix that
    is not symmetric. *)
Definition coordinates : seq coordinate := [:: Cr; Ctheta; Cphi].

Definition metric : seq (seq (pyval expression)) :=
  [:: [:: PyInt 1; PyInt 0; PyInt 0];
      [:: PyInt 0; PyExpr (pow sympy (as_expr sympy Cr) 2); PyInt 0];
      [:: PyInt 0; PyInt 0;
          PyExpr (mul sympy (pow sympy (as_expr sympy Cr) 2)
                    (pow sympy (sin sympy (as_expr sympy Ctheta)) 2))]].

Definition identity2 : seq (seq (pyval expression)) :=
  [:: [:: PyInt 1; PyInt 0]; [:: PyInt 0; PyInt 1]].


Definition skew2 : seq (seq (pyval expression)) :=
  [:: [:: PyInt 1; PyExpr (as_expr sympy Cr)]; [:: PyInt 0; PyInt 1]].

(** A world to call the functions in, and a function that raises. *)
Definition world : World := mkWorld 0 (fun _ => PrimFloat.zero) [::].

Definition failing : pyfunc nat nat :=
  PyFunc "failing"%string (fun _ => pure (Raise ValueError)).

End Model.

(* ---------------------------------------------------------------------- *)
(** * Further vocabulary                                                   *)
(* ---------------------------------------------------------------------- *)

(** The triples in the order of three nested loops,
    [for i in range(dims): for j in range(dims): for k in range(dims)],
    which the comment on line 46 names as the alternative. *)
Definition nested_triples (dims : nat) : seq (nat * nat * nat) :=
  flatten [seq flatten [seq [seq (i, j, k) | k <- iota 0 dims]
                       | j <- iota 0 dims]
          | i <- iota 0 dims].

(** Lines 41-42 (64-65): the matrix is built, then inverted. *)
Definition inversion (symbol Sym E : Type) (K : backend symbol Sym E)
    (list2d : seq (seq (pyval Sym))) : result (seq (seq E)) :=
  Let mat := Matrix K list2d in inv K mat.

(** A table whose rows differ in length, for the model. *)
Definition ragged_table : seq (seq (pyval Model.expression)) :=
  [:: [:: PyInt 1]; [:: PyInt 0; PyInt 1]].

(* ====================================================================== *)
(** * Proofs                                                               *)
(* ====================================================================== *)

(* ---------------------------------------------------------------------- *)
(** ** The enumeration                                                     *)
(* ---------------------------------------------------------------------- *)

Section Enumeration.

Variable dims : nat.

Lemma index_k_lt t : (0 < dims)%N -> (index_k dims t < dims)%N.
Proof. by move=> d0; rewrite /index_k ltn_pmod. Qed.

Lemma index_j_lt t : (0 < dims)%N -> (index_j dims t < dims)%N.
Proof. by move=> d0; rewrite /index_j ltn_pmod. Qed.

Lemma index_i_lt t : (0 < dims)%N -> (index_i dims t < dims)%N.
Proof. by move=> d0; rewrite /index_i ltn_pmod. Qed.

Lemma counter_lt i j k :
  (i < dims)%N -> (j < dims)%N -> (k < dims)%N ->
  (counter dims (i, j, k) < dims ^ 3)%N.
Proof.
move=> ltid ltjd ltkd; rewrite /counter /=.
have ltij : (i * dims + j < dims * dims)%N.
  apply: (@leq_trans (i * dims + dims)%N); first by rewrite ltn_add2l.
  by rewrite addnC -mulSn leq_mul2r ltid orbT.
apply: (@leq_trans ((i * dims + j) * dims + dims)%N); first by rewrite ltn_add2l.
by rewrite addnC -mulSn !expnS expn0 muln1 mulnA leq_mul2r ltij orbT.
Qed.

Lemma triple_counter i j k :
  (i < dims)%N -> (j < dims)%N -> (k < dims)%N ->
  triple dims (counter dims (i, j, k)) = (i, j, k).
Proof.
move=> ltid ltjd ltkd.
have d0 : (0 < dims)%N by apply: leq_ltn_trans ltid.
rewrite /triple /index_i /index_j /index_k /int_div /counter /=.
rewrite modnMDl (modn_small ltkd).
rewrite divnMDl // (divn_small ltkd) addn0 modnMDl (modn_small ltjd).
rewrite expnS expn1 divnMA divnMDl // (divn_small ltkd) addn0.
by rewrite divnMDl // (divn_small ltjd) addn0 (modn_small ltid).
Qed.

Lemma counter_triple t :
  (t < dims ^ 3)%N -> counter dims (triple dims t) = t.
Proof.
move=> lttd.
have d0 : (0 < dims)%N by case: dims lttd => //; rewrite exp0n.
rewrite /triple /index_i /index_j /index_k /int_div /counter /=.
have ltq : (t %/ dims ^ 2 < dims)%N.
  by rewrite ltn_divLR ?expn_gt0 ?d0 // -expnS.
rewrite (modn_small ltq) expnS expn1 divnMA.
by rewrite -(divn_eq (t %/ dims) dims) -divn_eq.
Qed.

Lemma triple_in_range t :
  (t < dims ^ 3)%N ->
  [/\ (index_i dims t < dims)%N, (index_j dims t < dims)%N &
      (index_k dims t < dims)%N].
Proof.
move=> lttd.
have d0 : (0 < dims)%N by case: dims lttd => //; rewrite exp0n.
by split; rewrite ?index_i_lt ?index_j_lt ?index_k_lt.
Qed.

Lemma mem_counterlist t : (t \in _counterlist dims) = (t < dims ^ 3)%N.
Proof. by rewrite /_counterlist mem_iota add0n. Qed.

Lemma triples_uniq : uniq [seq triple dims t | t <- _counterlist dims].
Proof.
rewrite map_inj_in_uniq ?iota_uniq // => t u.
rewrite !mem_counterlist => ltt ltu eq_tu.
by rewrite -(counter_triple ltt) -(counter_triple ltu) eq_tu.
Qed.

Lemma mem_triples i j k :
  ((i, j, k) \in [seq triple dims t | t <- _counterlist dims])
  = [&& (i < dims)%N, (j < dims)%N & (k < dims)%N].
Proof.
apply/mapP/and3P => [[t] | [ltid ltjd ltkd]].
  rewrite mem_counterlist => /triple_in_range [hi hj hk] [-> -> ->].
  by split.
exists (counter dims (i, j, k)); last by rewrite triple_counter.
by rewrite mem_counterlist counter_lt.
Qed.

End Enumeration.

(** C8. The triples read off the counters t = 0 .. dims^3 - 1 by
    k = t mod dims, j = (t div dims) mod dims, i = (t div dims^2) mod dims
    contain every triple with all three coordinates below dims exactly
    once, and no other triple. *)
Theorem enumeration_exactly_once (dims i j k : nat) :
  count_mem (i, j, k) [seq triple dims t | t <- _counterlist dims]
  = [&& (i < dims)%N, (j < dims)%N & (k < dims)%N] :> nat.
Proof. by rewrite (count_uniq_mem _ (triples_uniq dims)) mem_triples. Qed.

(* ---------------------------------------------------------------------- *)
(** ** The timing decorator                                                *)
(* ---------------------------------------------------------------------- *)

Lemma call_timeit (A B : Type) (f : pyfunc A B) (args : A) (w : World) :
  (call (timeit f) args w).1 = (call f args (time_time w).2).1.
Proof.
rewrite /timeit /function_timer /=.
by case: (call f args _) => [[value | e] w2].
Qed.

Lemma call_timeit_pure (A B : Type) (name : string) (f : A -> result B)
    (args : A) (w : World) :
  (call (timeit (PyFunc name (fun a => pure (f a)))) args w).1 = f args.
Proof. by rewrite call_timeit. Qed.

(** C9. A call of the decorated function gives what the call of the
    function itself gives once the start time has been read: when the
    function returns a value, that value, with one more clock reading and
    one report printed; when it raises, that exception, with nothing read
    or printed after it. *)
Theorem timeit_returns_unchanged (A B : Type) (f : pyfunc A B) (args : A)
    (w : World) :
  (call (timeit f) args w).1 = (call f args (time_time w).2).1
  /\ match call f args (time_time w).2 with
     | (Ok value, w2) =>
         call (timeit f) args w
         = (Ok value,
            print (Report msg (__name__ f)
                     (PrimFloat.sub (time_time w2).1 (time_time w).1))
                  (time_time w2).2)
     | (Raise e, w2) => call (timeit f) args w = (Raise e, w2)
     end.
Proof.
rewrite /timeit /function_timer /=.
by case: (call f args _) => [[value | e] w2].
Qed.

(* ---------------------------------------------------------------------- *)
(** ** Python lists                                                        *)
(* ---------------------------------------------------------------------- *)

Section Lists.

Variable T : Type.
Implicit Types s : seq T.

Lemma getitemE x0 s i :
  getitem s i = if (i < size s)%N then Ok (nth x0 s i) else Raise IndexError.
Proof. by elim: s i => [|x s IH] [|i] //=; rewrite IH. Qed.

Lemma setitemE x0 s i v :
  setitem s i v
  = if (i < size s)%N then Ok (set_nth x0 s i v) else Raise IndexError.
Proof.
elim: s i => [|x s IH] [|i] //=.
by rewrite IH ltnS; case: (i < size s)%N.
Qed.

End Lists.

Lemma getitem2E (T : Type) (x0 : T) (m : seq (seq T)) i j :
  getitem2 m i j
  = if (i < size m)%N && (j < size (nth [::] m i))%N
    then Ok (nth x0 (nth [::] m i) j) else Raise IndexError.
Proof.
rewrite /getitem2 (getitemE [::]); case: (i < size m)%N => //=.
exact: getitemE.
Qed.

Lemma for_each_Ok (A : eqType) (S : Type) (body : A -> S -> result S)
    (f : A -> S -> S) (xs : seq A) (acc : S) :
  (forall x a, x \in xs -> body x a = Ok (f x a)) ->
  for_each body xs acc = Ok (foldl (fun a x => f x a) acc xs).
Proof.
elim: xs acc => [|x xs IH] acc //= ok_body.
rewrite ok_body ?mem_head //=; apply: IH => y a y_in.
by apply: ok_body; rewrite in_cons y_in orbT.
Qed.

Lemma for_each_inv (A : eqType) (S : Type) (body : A -> S -> result S)
    (xs : seq A) (acc res : S) :
  for_each body xs acc = Ok res ->
  forall x, x \in xs -> exists a b, body x a = Ok b.
Proof.
elim: xs acc => [|y xs IH] acc //=.
case eq_y: (body y acc) => [acc'|] //= eq_rest x.
rewrite in_cons => /orP [/eqP -> | x_in]; first by exists acc, acc'.
exact: IH eq_rest x x_in.
Qed.

(* ---------------------------------------------------------------------- *)
(** ** Nested lists of cubic shape                                         *)
(* ---------------------------------------------------------------------- *)

Section Cubes.

Variable T : Type.
Implicit Types (c : seq (seq (seq T))) (d i j k : nat).

Lemma cubicP d c :
  reflect
    (size c = d /\
     forall i, (i < d)%N ->
       size (nth [::] c i) = d /\
       forall j, (j < d)%N -> size (nth [::] (nth [::] c i) j) = d)
    (cubic d c).
Proof.
apply: (iffP andP) => [[/eqP szc /(all_nthP [::]) cP] | [szc cP]].
  split=> // i ltid.
  have := cP i; rewrite szc => /(_ ltid) /andP [/eqP szp /(all_nthP [::]) rP].
  by split=> // j ltjd; apply/eqP/rP; rewrite szp.
split; first exact/eqP.
apply/(all_nthP [::]) => i; rewrite szc => ltid.
have [szp rP] := cP i ltid; rewrite szp eqxx /=.
apply/(all_nthP [::]) => j; rewrite szp => ltjd.
by rewrite (rP j ltjd).
Qed.

Lemma cubic_size d c : cubic d c -> size c = d.
Proof. by case/cubicP. Qed.

Lemma getitem3_cell x0 d c i j k :
  cubic d c -> (i < d)%N -> (j < d)%N -> (k < d)%N ->
  getitem3 c i j k = Ok (cell x0 c i j k).
Proof.
move=> /cubicP [szc cP] ltid ltjd ltkd; have [szp rP] := cP i ltid.
rewrite /getitem3 (getitemE [::]) szc ltid /= (getitemE [::]) szp ltjd /=.
by rewrite (getitemE x0) (rP j ltjd) ltkd.
Qed.

Lemma setitem3_upd d c i j k v :
  cubic d c -> (i < d)%N -> (j < d)%N -> (k < d)%N ->
  setitem3 c i j k v = Ok (upd c i j k v).
Proof.
move=> /cubicP [szc cP] ltid ltjd ltkd; have [szp rP] := cP i ltid.
rewrite /setitem3 (getitemE [::]) szc ltid /= (getitemE [::]) szp ltjd /=.
rewrite (setitemE v) (rP j ltjd) ltkd /= (setitemE [::]) szp ltjd /=.
by rewrite (setitemE [::]) szc ltid.
Qed.

Lemma cubic_upd d c i j k v :
  cubic d c -> (i < d)%N -> (j < d)%N -> (k < d)%N -> cubic d (upd c i j k v).
Proof.
move=> /cubicP [szc cP] ltid ltjd ltkd; have [szp rP] := cP i ltid.
apply/cubicP; rewrite /upd size_set_nth szc; split; first exact/maxn_idPr.
move=> a ltad; rewrite nth_set_nth /=; case: eqP => [_ | _]; last exact: cP.
rewrite size_set_nth szp; split; first exact/maxn_idPr.
move=> b ltbd; rewrite nth_set_nth /=; case: eqP => [_ | _]; last exact: rP.
by rewrite size_set_nth (rP j ltjd); apply/maxn_idPr.
Qed.

Lemma cell_upd x0 d c i j k v a b e :
  cubic d c -> (i < d)%N -> (j < d)%N -> (k < d)%N ->
  cell x0 (upd c i j k v) a b e
  = if [&& a == i, b == j & e == k] then v else cell x0 c a b e.
Proof.
move=> /cubicP [szc cP] ltid ltjd ltkd; have [szp rP] := cP i ltid.
rewrite /cell /upd nth_set_nth /=; case: (eqVneq a i) => [-> | //] /=.
rewrite nth_set_nth /=; case: (eqVneq b j) => [-> | //] /=.
have szr : size (nth [::] (nth [::] c i) j) = d := rP j ltjd.
have szu : size (set_nth v (nth [::] (nth [::] c i) j) k v) = d.
  by rewrite size_set_nth szr; apply/maxn_idPr.
case: (ltnP e d) => [lted | leqde]; last first.
  rewrite [LHS]nth_default ?szu // [nth x0 _ e]nth_default ?szr //.
  case: (eqVneq e k) leqde => [-> | //].
  by rewrite leqNgt ltkd.
rewrite (set_nth_default v x0) ?szu // nth_set_nth /=.
by case: (eqVneq e k) => // _; rewrite (set_nth_default x0 v) ?szr.
Qed.

Lemma cubic_nseq d (x : T) : cubic d (nseq d (nseq d (nseq d x))).
Proof.
apply/cubicP; rewrite size_nseq; split=> // i ltid.
rewrite nth_nseq ltid size_nseq; split=> // j ltjd.
by rewrite nth_nseq ltjd size_nseq.
Qed.

End Cubes.

Lemma squareP (T : Type) (n : nat) (m : seq (seq T)) :
  reflect (size m = n /\ forall i, (i < n)%N -> size (nth [::] m i) = n)
          (square n m).
Proof.
apply: (iffP andP) => [[/eqP szm /(all_nthP [::]) mP] | [szm mP]].
  by split=> // i ltin; apply/eqP/mP; rewrite szm.
split; first exact/eqP.
by apply/(all_nthP [::]) => i; rewrite szm => /mP ->.
Qed.

Lemma for_each_cat (A S : Type) (body : A -> S -> result S)
    (xs ys : seq A) (acc : S) :
  for_each body (xs ++ ys) acc
  = Let acc' := for_each body xs acc in for_each body ys acc'.
Proof. by elim: xs acc => [|x xs IH] acc //=; case: (body x acc). Qed.

(* ---------------------------------------------------------------------- *)
(** ** The loops, whatever the back end                                    *)
(* ---------------------------------------------------------------------- *)

Section Loops.

Variables (symbol Sym E : Type) (K : backend symbol Sym E).
Variable store : pyval E -> pyval Sym.
Variables (mat_inv : seq (seq E)) (list2d : seq (seq (pyval Sym))).
Variables (syms : seq symbol) (s0 : symbol).

Let dims := size syms.

Lemma summand_term N i j k n :
  square N mat_inv -> square N list2d ->
  (i < N)%N -> [&& (j < N)%N, (k < N)%N & (n < N)%N] ->
  [&& (j < dims)%N, (k < dims)%N & (n < dims)%N] ->
  summand K mat_inv list2d syms i j k n
  = Ok (term K mat_inv list2d syms s0 i j k n).
Proof.
move=> /squareP [szM MP] /squareP [szg gP] ltiN /and3P [ltjN ltkN ltnN].
move=> /and3P [ltjd ltkd ltnd]; rewrite /summand /term.
rewrite (getitem2E (sympify K (PyInt 0))) szM ltiN (MP i ltiN) ltnN /=.
rewrite (getitem2E (PyInt 0)) szg ltnN (gP n ltnN) ltjN /=.
rewrite (getitemE s0) ltkd /= (getitem2E (PyInt 0)) szg ltnN (gP n ltnN) ltkN /=.
rewrite (getitemE s0) ltjd /= (getitem2E (PyInt 0)) szg ltjN (gP j ltjN) ltkN /=.
by rewrite (getitemE s0) ltnd.
Qed.

Lemma entry_total N i j k :
  square N mat_inv -> square N list2d -> (dims <= N)%N ->
  (i < dims)%N -> (j < dims)%N -> (k < dims)%N ->
  entry K mat_inv list2d syms i j k = Ok (total K mat_inv list2d syms s0 i j k).
Proof.
move=> sqM sqg ledN ltid ltjd ltkd; rewrite /entry /total.
rewrite (@for_each_Ok _ _ _
           (fun n temp => iadd K temp (term K mat_inv list2d syms s0 i j k n))) //.
move=> n temp; rewrite mem_iota add0n /= => ltnd.
rewrite (@summand_term N) ?ltjd ?ltkd ?ltnd //.
  exact: leq_trans ltid ledN.
by rewrite !(leq_trans _ ledN).
Qed.

Lemma entry_overlong N :
  square N mat_inv -> square N list2d -> (N < dims)%N ->
  entry K mat_inv list2d syms 0 0 0 = Raise IndexError.
Proof.
move=> sqM sqg ltNd; rewrite /entry -/dims -(subnKC (ltnW ltNd)) iotaD add0n.
rewrite for_each_cat.
have -> /= : for_each
      (fun n temp => Let x := summand K mat_inv list2d syms 0 0 0 n in
                     Ok (iadd K temp x)) (iota 0 N) (PyInt 0)
    = Ok (foldl (fun temp n => iadd K temp (term K mat_inv list2d syms s0 0 0 0 n))
            (PyInt 0) (iota 0 N)).
  apply: for_each_Ok => n temp; rewrite mem_iota add0n /= => ltnN.
  have lt0N : (0 < N)%N by apply: leq_ltn_trans ltnN.
  rewrite (@summand_term N) ?lt0N ?ltnN ?(leq_trans lt0N (ltnW ltNd)) //=.
  exact: ltn_trans ltnN ltNd.
case: (dims - N)%N (subn_gt0 N dims) => [|q _ /=]; first by rewrite ltNd.
rewrite /summand (getitem2E (sympify K (PyInt 0))).
have /squareP [-> MP] := sqM.
by case: (posnP N) => [-> | lt0N] //=; rewrite (MP 0%N lt0N) ltnn.
Qed.

Lemma entry_is_expr i j k v :
  entry K mat_inv list2d syms i j k = Ok v -> (0 < dims)%N -> is_expr v.
Proof.
rewrite /entry -/dims => eq_v lt0d.
have: is_expr (PyInt 0 : pyval E) || (iota 0 dims != [::]).
  by rewrite -size_eq0 size_iota -lt0n lt0d orbT.
elim: (iota 0 dims) (PyInt 0 : pyval E) eq_v => [|n ns IH] temp /=.
  by case=> ->; rewrite orbF.
case: (summand _ _ _ _ _ _ _ _) => [x|] //= eq_v _.
by apply: IH eq_v _; case: temp.
Qed.

Lemma loop_body_upd t c :
  cubic dims c -> (t < dims ^ 3)%N ->
  loop_body K store mat_inv list2d syms t c
  = Let temp := entry K mat_inv list2d syms
                  (index_i dims t) (index_j dims t) (index_k dims t) in
    Ok (upd c (index_i dims t) (index_j dims t) (index_k dims t) (store temp)).
Proof.
move=> cub_c /triple_in_range [lti ltj ltk]; rewrite /loop_body -/dims.
by case: (entry _ _ _ _ _ _ _) => [temp|] //=; rewrite (setitem3_upd _ cub_c).
Qed.

Lemma loop_inv x0 ts c0 c :
  cubic dims c0 -> {in ts, forall t, (t < dims ^ 3)%N} ->
  for_each (loop_body K store mat_inv list2d syms) ts c0 = Ok c ->
  cubic dims c /\
  forall i j k,
    if (i, j, k) \in [seq triple dims t | t <- ts]
    then exists2 temp, entry K mat_inv list2d syms i j k = Ok temp
                     & cell x0 c i j k = store temp
    else cell x0 c i j k = cell x0 c0 i j k.
Proof.
elim: ts c0 => [|t ts IH] c0 cub_c0 in_range /=; first by case=> <-.
have ltt : (t < dims ^ 3)%N by apply: in_range; rewrite mem_head.
have [lti ltj ltk] := triple_in_range ltt.
rewrite loop_body_upd //.
case eq_t: (entry _ _ _ _ _ _ _) => [temp|] //= eq_c.
have cub_c1 := cubic_upd (store temp) cub_c0 lti ltj ltk.
have in_range' : {in ts, forall u, (u < dims ^ 3)%N}.
  by move=> u u_in; apply: in_range; rewrite in_cons u_in orbT.
have [cub_c cP] := IH _ cub_c1 in_range' eq_c; split=> // i j k.
rewrite in_cons; have := cP i j k.
case: ((i, j, k) \in _) => [|->]; first by rewrite orbT.
rewrite orbF (cell_upd x0 _ _ _ _ cub_c0) // /triple !xpair_eqE -andbA.
by case: and3P => // [[/eqP -> /eqP -> /eqP ->]]; exists temp.
Qed.

Lemma loop_progress ts c0 :
  cubic dims c0 -> {in ts, forall t, (t < dims ^ 3)%N} ->
  (forall i j k, (i < dims)%N -> (j < dims)%N -> (k < dims)%N ->
     exists temp, entry K mat_inv list2d syms i j k = Ok temp) ->
  exists c, for_each (loop_body K store mat_inv list2d syms) ts c0 = Ok c.
Proof.
move=> cub_c0 in_range ok_entry.
elim: ts c0 cub_c0 in_range => [|t ts IH] c0 cub_c0 in_range /=; first by exists c0.
have ltt : (t < dims ^ 3)%N by apply: in_range; rewrite mem_head.
have [lti ltj ltk] := triple_in_range ltt.
rewrite loop_body_upd //; have [temp ->] /= := ok_entry _ _ _ lti ltj ltk.
apply: IH; first exact: cubic_upd.
by move=> u u_in; apply: in_range; rewrite in_cons u_in orbT.
Qed.

Lemma loop_first_fails e c0 :
  (0 < dims)%N -> entry K mat_inv list2d syms 0 0 0 = Raise e ->
  for_each (loop_body K store mat_inv list2d syms) (_counterlist dims) c0
  = Raise e.
Proof.
move=> lt0d eq_e; rewrite /_counterlist.
have: (0 < dims ^ 3)%N by rewrite expn_gt0 lt0d.
case: (dims ^ 3)%N => // q _ /=.
by rewrite /loop_body /index_i /index_j /index_k /int_div !div0n !mod0n eq_e.
Qed.

End Loops.

(* ---------------------------------------------------------------------- *)
(** ** The body of the two functions, whatever the back end                *)
(* ---------------------------------------------------------------------- *)

Section Body.

Variables (symbol Sym E : Type) (K : backend symbol Sym E).
Variable store : pyval E -> pyval Sym.
Variables (list2d : seq (seq (pyval Sym))) (syms : seq symbol).

Let dims := size syms.

Lemma christoffels_inv c :
  christoffels K store list2d syms = Ok c ->
  exists M M',
    [/\ Matrix K list2d = Ok M, inv K M = Ok M' &
        for_each (loop_body K store M' list2d syms) (_counterlist dims)
          (zeros3 Sym dims) = Ok c].
Proof.
rewrite /christoffels -/dims.
case eq_M: (Matrix K list2d) => [M|] //=.
by case eq_M': (inv K M) => [M'|] //= eq_c; exists M, M'.
Qed.

Lemma christoffels_cells c :
  christoffels K store list2d syms = Ok c ->
  exists M M',
    [/\ Matrix K list2d = Ok M, inv K M = Ok M', cubic dims c &
        forall i j k, (i < dims)%N -> (j < dims)%N -> (k < dims)%N ->
          exists2 temp, entry K M' list2d syms i j k = Ok temp
                      & getitem3 c i j k = Ok (store temp)].
Proof.
move=> /christoffels_inv [M [M' [eq_M eq_M' eq_c]]]; exists M, M'.
have in_range : {in _counterlist dims, forall t, (t < dims ^ 3)%N}.
  by move=> t; rewrite mem_counterlist.
have [cub_c cP] := loop_inv (PyInt 0) (cubic_nseq dims _) in_range eq_c.
split=> // i j k ltid ltjd ltkd; have := cP i j k.
rewrite mem_triples ltid ltjd ltkd /= => -[temp eq_temp eq_cell].
by exists temp; rewrite // (getitem3_cell (PyInt 0) cub_c) // eq_cell.
Qed.

Lemma christoffels_Raise e M :
  Matrix K list2d = Ok M -> inv K M = Raise e ->
  christoffels K store list2d syms = Raise e.
Proof. by rewrite /christoffels => -> /= ->. Qed.

Lemma christoffels_overlong M M' N :
  Matrix K list2d = Ok M -> inv K M = Ok M' ->
  square N M' -> square N list2d -> (N < dims)%N ->
  christoffels K store list2d syms = Raise IndexError.
Proof.
move=> eq_M eq_M' sqM' sqg ltNd; rewrite /christoffels eq_M /= eq_M' /=.
have lt0d : (0 < dims)%N by apply: leq_ltn_trans ltNd.
have [s0 _] : exists s0 : symbol, True.
  by move: lt0d; rewrite /dims; case: (syms) => [|s0 _] // _; exists s0.
apply: loop_first_fails => //.
exact: (entry_overlong K s0 sqM' sqg ltNd).
Qed.

Lemma christoffels_Ok M M' N s0 :
  Matrix K list2d = Ok M -> inv K M = Ok M' ->
  square N M' -> square N list2d -> (dims <= N)%N ->
  exists c,
    [/\ christoffels K store list2d syms = Ok c, cubic dims c &
        forall i j k, (i < dims)%N -> (j < dims)%N -> (k < dims)%N ->
          getitem3 c i j k = Ok (store (total K M' list2d syms s0 i j k))].
Proof.
move=> eq_M eq_M' sqM' sqg ledN.
have in_range : {in _counterlist dims, forall t, (t < dims ^ 3)%N}.
  by move=> t; rewrite mem_counterlist.
have ok_entry i j k : (i < dims)%N -> (j < dims)%N -> (k < dims)%N ->
    entry K M' list2d syms i j k = Ok (total K M' list2d syms s0 i j k).
  exact: entry_total sqM' sqg ledN.
have [c eq_c] : exists c,
    for_each (loop_body K store M' list2d syms) (_counterlist dims)
      (zeros3 Sym dims) = Ok c.
  apply: loop_progress in_range _; first exact: cubic_nseq.
  by move=> i j k ltid ltjd ltkd; rewrite ok_entry //; eexists.
exists c; have [cub_c cP] := loop_inv (PyInt 0) (cubic_nseq dims _) in_range eq_c.
split=> // [|i j k ltid ltjd ltkd]; first by rewrite /christoffels eq_M /= eq_M'.
have := cP i j k; rewrite mem_triples ltid ltjd ltkd /= => -[temp].
rewrite ok_entry // => -[<-] eq_cell.
by rewrite (getitem3_cell (PyInt 0) cub_c) // eq_cell.
Qed.

End Body.

(* ---------------------------------------------------------------------- *)
(** ** Inverses of a matrix given by its entries                           *)
(* ---------------------------------------------------------------------- *)

Section Inverses.

Variables (V : fieldType) (n : nat).
Implicit Types g h : nat -> nat -> V.

Let mx g : 'M[V]_n := \matrix_(a, b) g a b.

Lemma is_inverse_mx g h : is_inverse n g h <-> mx g *m mx h = 1%:M.
Proof.
split=> [inv_gh | eq_gh a c ltan ltcn].
  apply/matrixP => a c; rewrite !mxE -(inv_gh a c) // big_mkord.
  by apply: eq_bigr => b _; rewrite !mxE.
have := congr1 (fun A : 'M_n => A (Ordinal ltan) (Ordinal ltcn)) eq_gh.
rewrite !mxE /= => <-; rewrite big_mkord.
by apply: eq_bigr => b _; rewrite !mxE.
Qed.

Lemma is_inverse_unique g h h' :
  is_inverse n g h -> is_inverse n g h' ->
  forall a c, (a < n)%N -> (c < n)%N -> h a c = h' a c.
Proof.
move=> /is_inverse_mx eq_gh /is_inverse_mx eq_gh' a c ltan ltcn.
have eq_h : mx h = mx h'.
  by rewrite -[mx h]mulmx1 -eq_gh' mulmxA (mulmx1C eq_gh) mul1mx.
have := congr1 (fun A : 'M_n => A (Ordinal ltan) (Ordinal ltcn)) eq_h.
by rewrite !mxE.
Qed.

Lemma is_inverse_ext g g' h h' :
  (forall a b, (a < n)%N -> (b < n)%N -> g a b = g' a b) ->
  (forall a b, (a < n)%N -> (b < n)%N -> h a b = h' a b) ->
  is_inverse n g h -> is_inverse n g' h'.
Proof.
move=> eq_g eq_h inv_gh a c ltan ltcn; rewrite -(inv_gh a c) // !big_mkord.
by apply: eq_bigr => b _; rewrite eq_g // eq_h.
Qed.

Lemma is_inverse_delta :
  is_inverse n (fun a b => (a == b)%:R : V) (fun a b => (a == b)%:R : V).
Proof.
apply/is_inverse_mx; rewrite -[RHS]mulmx1; congr (_ *m _);
  by apply/matrixP => a b; rewrite !mxE.
Qed.

End Inverses.

(* ---------------------------------------------------------------------- *)
(** ** What a sound back end computes                                      *)
(* ---------------------------------------------------------------------- *)

Section Denotation.

Variables (symbol Sym : Type) (V : fieldType) (D : symbol -> V -> V).
Variable denS : Sym -> V.
Variables (E : Type) (K : backend symbol Sym E) (den : E -> V).

Hypothesis neq20 : 2%:R != 0 :> V.
Hypothesis snd : sound D denS K den.

Lemma values_nth (T : Type) (val : T -> V) (x0 : T) (m : seq (seq T)) a b :
  val x0 = 0 -> val (nth x0 (nth [::] m a) b) = values val m a b.
Proof.
move=> val0; rewrite /values; case: (ltnP b (size (nth [::] m a))) => [ltb | leb].
  by rewrite (nth_map x0).
by rewrite [nth x0 _ b]nth_default // [RHS]nth_default ?size_map.
Qed.

Lemma values_map (T : Type) (val : T -> V) (m : seq (seq T)) a b :
  values val m a b = nth 0 (nth [::] [seq [seq val x | x <- row] | row <- m] a) b.
Proof.
rewrite /values; case: (ltnP a (size m)) => [lta | lea].
  by rewrite (nth_map [::]).
by rewrite !(nth_default [::]) ?size_map.
Qed.

Lemma den_iadd temp x :
  value_of den (iadd K temp x) = value_of den temp + den x.
Proof. by case: temp => [z | e] /=; rewrite (den_add snd) ?(den_sympify snd). Qed.

Lemma den_term M' list2d syms s0 i j k n :
  let g := values (value_of denS) list2d in
  let s := nth s0 syms in
  den (term K M' list2d syms s0 i j k n)
  = values den M' i n / 2%:R
    * (D (s k) (g n j) + D (s j) (g n k) - D (s n) (g j k)).
Proof.
rewrite /term /= (den_mul snd) (den_sub snd) (den_add snd) !(den_diff snd).
rewrite (den_truediv snd) (den_sympify snd) //=.
rewrite -!(@values_nth _ (value_of denS) (PyInt 0)) //.
by rewrite -(@values_nth _ den (sympify K (PyInt 0))) // (den_sympify snd).
Qed.

Lemma den_total M' list2d syms s0 i j k :
  value_of den (total K M' list2d syms s0 i j k)
  = christoffel_sum D (size syms) (values (value_of denS) list2d)
      (values den M') (nth s0 syms) i j k.
Proof.
rewrite /total /christoffel_sum /index_iota subn0.
have -> : forall ns temp,
    value_of den
      (foldl (fun temp n => iadd K temp (term K M' list2d syms s0 i j k n))
         temp ns)
    = value_of den temp
      + \sum_(n <- ns) den (term K M' list2d syms s0 i j k n).
  elim=> [|n ns IH] temp /=; first by rewrite big_nil addr0.
  by rewrite IH den_iadd big_cons addrA.
by rewrite /= add0r; apply: eq_bigr => n _; rewrite den_term.
Qed.

Lemma Matrix_shape m M n :
  Matrix K m = Ok M -> square n M = square n m.
Proof.
move=> /(Matrix_values snd) eq_M; rewrite /square.
have -> : size M = size m by rewrite -(size_map (map den)) eq_M size_map.
congr (_ && _).
have -> : all (fun row => size row == n) M
          = all (fun row => size row == n) [seq [seq den e | e <- row] | row <- M].
  by rewrite all_map; apply: eq_all => row /=; rewrite size_map.
by rewrite eq_M all_map; apply: eq_all => row /=; rewrite size_map.
Qed.

Lemma Matrix_den m M a b :
  Matrix K m = Ok M -> values den M a b = values (value_of denS) m a b.
Proof. by move=> /(Matrix_values snd) eq_M; rewrite !values_map eq_M. Qed.

End Denotation.

Section SoundEngine.

Variables (symbol Sym : Type) (V : fieldType) (D : symbol -> V -> V).
Variable denS : Sym -> V.
Variables (E : Type) (K : backend symbol Sym E) (den : E -> V).
Variable store : pyval E -> pyval Sym.

Hypothesis neq20 : 2%:R != 0 :> V.
Hypothesis snd : sound D denS K den.

Variables (list2d : seq (seq (pyval Sym))) (syms : seq symbol) (s0 : symbol).

Let dims := size syms.
Let N := size list2d.
Let g := values (value_of denS) list2d.

Lemma inv_Matrix M M' :
  Matrix K list2d = Ok M -> inv K M = Ok M' ->
  [/\ square N list2d, square N M' & is_inverse N g (values den M')].
Proof.
move=> eq_M eq_M'; have [sqM sqM' inv_M] := inv_inverse snd eq_M'.
have szM : size M = N.
  by rewrite -(size_map (map den)) (Matrix_values snd eq_M) size_map.
rewrite szM in sqM sqM' inv_M; split=> //.
  by rewrite -(Matrix_shape snd N eq_M).
by apply: is_inverse_ext inv_M => // a b _ _; exact: (Matrix_den snd a b eq_M).
Qed.

Lemma engine_sound c :
  christoffels K store list2d syms = Ok c ->
  exists h,
    [/\ square N list2d, (dims <= N)%N, is_inverse N g h, cubic dims c &
        forall i j k, (i < dims)%N -> (j < dims)%N -> (k < dims)%N ->
          exists2 temp, getitem3 c i j k = Ok (store temp)
             & is_expr temp
               /\ value_of den temp
                  = christoffel_sum D dims g h (nth s0 syms) i j k].
Proof.
move=> eq_c; have [M [M' [eq_M eq_M' cub_c cP]]] := christoffels_cells eq_c.
have [sqg sqM' inv_g] := inv_Matrix eq_M eq_M'.
have ledN : (dims <= N)%N.
  rewrite leqNgt; apply/negP => ltNd.
  by rewrite (christoffels_overlong store eq_M eq_M' sqM' sqg ltNd) in eq_c.
exists (values den M'); split=> // i j k ltid ltjd ltkd.
have [temp eq_temp eq_cell] := cP i j k ltid ltjd ltkd.
exists temp => //; split.
  by apply: entry_is_expr eq_temp _; apply: leq_ltn_trans ltid.
move: eq_temp; rewrite (entry_total K s0 sqM' sqg ledN) // => -[<-].
exact: den_total.
Qed.

Lemma inverse_computed :
  square N list2d -> invertible N g ->
  exists M M', [/\ Matrix K list2d = Ok M, inv K M = Ok M' & square N M'].
Proof.
move=> sqg [h inv_g]; have [M eq_M] := Matrix_square snd sqg.
have szM : size M = N.
  by rewrite -(size_map (map den)) (Matrix_values snd eq_M) size_map.
have sqM : square (size M) M by rewrite szM (Matrix_shape snd N eq_M).
have [|M' eq_M'] := inv_invertible snd sqM.
  exists h; rewrite szM; apply: is_inverse_ext inv_g => // a b _ _.
  by rewrite (Matrix_den snd a b eq_M).
by exists M, M'; have [_ sqM' _] := inv_Matrix eq_M eq_M'.
Qed.

Lemma engine_complete :
  square N list2d -> (dims <= N)%N -> invertible N g ->
  exists c, christoffels K store list2d syms = Ok c.
Proof.
move=> sqg ledN inv_g; have [M [M' [eq_M eq_M' sqM']]] := inverse_computed sqg inv_g.
have [c [eq_c _ _]] := christoffels_Ok store s0 eq_M eq_M' sqM' sqg ledN.
by exists c.
Qed.

Lemma engine_overlong :
  square N list2d -> invertible N g -> (N < dims)%N ->
  christoffels K store list2d syms = Raise IndexError.
Proof.
move=> sqg inv_g ltNd; have [M [M' [eq_M eq_M' sqM']]] := inverse_computed sqg inv_g.
exact: christoffels_overlong eq_M eq_M' sqM' sqg ltNd.
Qed.

End SoundEngine.

Lemma engine_returns (symbol Sym : Type) (V : fieldType) (D : symbol -> V -> V)
    (denS : Sym -> V) (E : Type) (K : backend symbol Sym E) (den : E -> V)
    (store : pyval E -> pyval Sym) (list2d : seq (seq (pyval Sym)))
    (syms : seq symbol) :
  sound D denS K den ->
  square (size list2d) list2d -> (size syms <= size list2d)%N ->
  invertible (size list2d) (values (value_of denS) list2d) ->
  exists2 c, christoffels K store list2d syms = Ok c & cubic (size syms) c.
Proof.
move=> snd sqg ledN inv_g; case: syms ledN => [_ | s0 syms' ledN].
  have [M [M' [eq_M eq_M' _]]] := inverse_computed snd sqg inv_g.
  by exists [::]; rewrite // /christoffels eq_M /= eq_M'.
have [M [M' [eq_M eq_M' sqM']]] := inverse_computed snd sqg inv_g.
have [c [eq_c cub_c _]] := christoffels_Ok store s0 eq_M eq_M' sqM' sqg ledN.
by exists c.
Qed.

Section EngineValues.

Variables (symbol Sym : Type) (V : fieldType) (D : symbol -> V -> V).
Variable denS : Sym -> V.
Variables (E : Type) (K : backend symbol Sym E) (den : E -> V).
Variable store : pyval E -> pyval Sym.

Hypothesis neq20 : 2%:R != 0 :> V.
Hypothesis snd : sound D denS K den.
Hypothesis den_store : forall temp, value_of denS (store temp) = value_of den temp.

Variables (list2d : seq (seq (pyval Sym))) (syms : seq symbol) (s0 : symbol).

Let dims := size syms.
Let N := size list2d.
Let g := values (value_of denS) list2d.

Lemma engine_values c :
  christoffels K store list2d syms = Ok c ->
  exists h,
    [/\ square N list2d, (dims <= N)%N, is_inverse N g h, cubic dims c &
        forall i j k, (i < dims)%N -> (j < dims)%N -> (k < dims)%N ->
          entry_value denS c i j k
          = Ok (christoffel_sum D dims g h (nth s0 syms) i j k)].
Proof.
move=> /(engine_sound neq20 snd s0) [h [sqg ledN inv_g cub_c cP]].
exists h; split=> // i j k ltid ltjd ltkd.
have [temp eq_cell [_ eq_temp]] := cP i j k ltid ltjd ltkd.
by rewrite /entry_value eq_cell /= den_store eq_temp.
Qed.

Lemma christoffel_sum_ext d h h' s i j k n :
  (d <= n)%N -> (i < d)%N ->
  (forall a b, (a < n)%N -> (b < n)%N -> h a b = h' a b) ->
  christoffel_sum D d g h s i j k = christoffel_sum D d g h' s i j k.
Proof.
move=> ledn ltid eq_h; rewrite /christoffel_sum big_nat [RHS]big_nat.
apply: eq_bigr => m /andP [_ ltmd].
by rewrite eq_h // (leq_trans _ ledn).
Qed.

End EngineValues.

(* ---------------------------------------------------------------------- *)
(** ** The two functions                                                   *)
(* ---------------------------------------------------------------------- *)

Section Claims.

Variables (symbol Sym SE : Type) (V : fieldType) (D : symbol -> V -> V).
Variables (denS : Sym -> V) (denE : SE -> V).
Variable sympy : sympy_module symbol Sym.
Variable symengine : backend symbol Sym SE.
Variable sympy_S : pyval SE -> Sym.

Let reference := christoffels_reference sympy.
Let alternate := christoffels_symengine symengine sympy_S.
Let store_S := fun temp : pyval SE => PyExpr (sympy_S temp) : pyval Sym.

Lemma call_reference list2d syms w :
  (call reference (list2d, syms) w).1 = christoffels sympy id list2d syms.
Proof. exact: call_timeit_pure. Qed.

Lemma call_alternate list2d syms w :
  (call alternate (list2d, syms) w).1
  = christoffels symengine store_S list2d syms.
Proof. exact: call_timeit_pure. Qed.

Lemma christoffel_sum_sym d n (g h : nat -> nat -> V) s i j k :
  (d <= n)%N -> (j < d)%N -> (k < d)%N ->
  (forall a b, (a < n)%N -> (b < n)%N -> g a b = g b a) ->
  christoffel_sum D d g h s i j k = christoffel_sum D d g h s i k j.
Proof.
move=> ledn ltjd ltkd sym_g; rewrite /christoffel_sum.
apply: eq_bigr => m _; congr (_ * (_ - _)); first exact: addrC.
by rewrite (sym_g j k) // (leq_trans _ ledn).
Qed.

Lemma some_symbol (syms : seq symbol) i : (i < size syms)%N -> exists s0 : symbol, True.
Proof. by case: syms => [|s0 _] // _; exists s0. Qed.


Section Sound.

Hypothesis neq20 : 2%:R != 0 :> V.
Hypothesis sympy_sound : sound D denS sympy denS.
Hypothesis symengine_sound : sound D denS symengine denE.
Hypothesis S_sound : forall temp, denS (sympy_S temp) = value_of denE temp.

Variables (list2d : seq (seq (pyval Sym))) (syms : seq symbol).

Let dims := size syms.
Let N := size list2d.
Let g := values (value_of denS) list2d.

Lemma reference_values s0 c :
  christoffels sympy id list2d syms = Ok c ->
  exists h,
    [/\ square N list2d, (dims <= N)%N, is_inverse N g h, cubic dims c &
        forall i j k, (i < dims)%N -> (j < dims)%N -> (k < dims)%N ->
          entry_value denS c i j k
          = Ok (christoffel_sum D dims g h (nth s0 syms) i j k)].
Proof. exact: (engine_values neq20 sympy_sound). Qed.

Lemma alternate_values s0 c :
  christoffels symengine store_S list2d syms = Ok c ->
  exists h,
    [/\ square N list2d, (dims <= N)%N, is_inverse N g h, cubic dims c &
        forall i j k, (i < dims)%N -> (j < dims)%N -> (k < dims)%N ->
          entry_value denS c i j k
          = Ok (christoffel_sum D dims g h (nth s0 syms) i j k)].
Proof. exact: (engine_values neq20 symengine_sound). Qed.

(** C1. Whenever both functions return for the same metric and symbols,
    the two tensors have, at every (i, j, k) below dims, entries of the
    same value: the SymEngine entry converted by sympy.S and the SymPy
    entry denote the same element of V. *)
Theorem backends_agree (w w' : World) (cA cB : tensor Sym) :
  returns reference (list2d, syms) w cA ->
  returns alternate (list2d, syms) w' cB ->
  forall i j k, (i < dims)%N -> (j < dims)%N -> (k < dims)%N ->
    exists v, entry_value denS cA i j k = Ok v
              /\ entry_value denS cB i j k = Ok v.
Proof.
rewrite /returns call_reference call_alternate => eq_cA eq_cB i j k ltid ltjd ltkd.
have [s0 _] := some_symbol ltid.
have [h [_ ledN inv_h _ hP]] := reference_values s0 eq_cA.
have [h' [_ _ inv_h' _ hP']] := alternate_values s0 eq_cB.
exists (christoffel_sum D dims g h (nth s0 syms) i j k).
rewrite hP // hP' //; split=> //; congr Ok.
apply: christoffel_sum_ext ledN ltid _.
exact: is_inverse_unique inv_h' inv_h.
Qed.

(** C3. For a square metric of the size of the symbol list that has an
    inverse h, christoffels_reference returns, and its entry (i, j, k) is
    an expression whose value is the sum over n below dims of
    (h[i][n] / 2) * (d g[n][j] / d s[k] + d g[n][k] / d s[j]
                     - d g[j][k] / d s[n]). *)
Theorem reference_entry_formula (h : nat -> nat -> V) (s0 : symbol) (w : World) :
  square dims list2d -> is_inverse dims g h ->
  exists c,
    returns reference (list2d, syms) w c
    /\ forall i j k, (i < dims)%N -> (j < dims)%N -> (k < dims)%N ->
         exists e, getitem3 c i j k = Ok (PyExpr e)
                   /\ denS e = christoffel_sum D dims g h (nth s0 syms) i j k.
Proof.
move=> sqg inv_h; have szg : N = dims by case/andP: sqg => /eqP.
have [c eq_c] : exists c, christoffels sympy id list2d syms = Ok c.
  apply: (engine_complete id sympy_sound s0); rewrite -/N szg //.
  by exists h.
exists c; split=> [|i j k ltid ltjd ltkd]; first by rewrite /returns call_reference.
have [h' [_ ledN inv_h' _ hP]] := engine_sound neq20 sympy_sound s0 eq_c.
have [temp eq_cell [is_e eq_v]] := hP i j k ltid ltjd ltkd.
case: temp is_e eq_v eq_cell => [z | e] //= _ eq_v eq_cell.
exists e; split=> //; rewrite eq_v.
apply: christoffel_sum_ext ledN ltid _; rewrite -/N szg in inv_h' *.
exact: is_inverse_unique inv_h' inv_h.
Qed.

(** C4. For a symmetric metric, the tensor either function returns is
    symmetric in its last two indices: the entries (i, j, k) and (i, k, j)
    have the same value. *)
Theorem symmetric_in_lower_indices (w : World) (c : tensor Sym) :
  (forall a b, (a < N)%N -> (b < N)%N -> g a b = g b a) ->
  returns reference (list2d, syms) w c \/ returns alternate (list2d, syms) w c ->
  forall i j k, (i < dims)%N -> (j < dims)%N -> (k < dims)%N ->
    exists v, entry_value denS c i j k = Ok v
              /\ entry_value denS c i k j = Ok v.
Proof.
move=> sym_g ret_c i j k ltid ltjd ltkd; have [s0 _] := some_symbol ltid.
have [h [_ ledN _ _ hP]] : exists h,
    [/\ square N list2d, (dims <= N)%N, is_inverse N g h, cubic dims c &
        forall i j k, (i < dims)%N -> (j < dims)%N -> (k < dims)%N ->
          entry_value denS c i j k
          = Ok (christoffel_sum D dims g h (nth s0 syms) i j k)].
  case: ret_c; rewrite /returns ?call_reference ?call_alternate.
    exact: reference_values.
  exact: alternate_values.
exists (christoffel_sum D dims g h (nth s0 syms) i j k).
by rewrite !hP //; split=> //; rewrite (christoffel_sum_sym _ _ _ ledN ltkd ltjd).
Qed.

(** C6, as the code has it. Neither function compares the number of
    symbols with the size of the metric. For a square metric with an
    inverse: with fewer symbols than rows both functions return a tensor
    of shape dims x dims x dims, dims being the number of symbols; with
    more symbols than rows both raise IndexError, from the first subscript
    out of range in the loop, after the inversion. *)
Theorem no_shape_check (w : World) :
  square N list2d -> invertible N g ->
  ((dims < N)%N ->
     exists cA cB,
       [/\ returns reference (list2d, syms) w cA,
           returns alternate (list2d, syms) w cB,
           cubic dims cA & cubic dims cB])
  /\ ((N < dims)%N ->
        raises reference (list2d, syms) w IndexError
        /\ raises alternate (list2d, syms) w IndexError).
Proof.
move=> sqg inv_g; rewrite /returns /raises !call_reference !call_alternate.
split=> [ltdN | ltNd].
  have [cA eq_cA cub_cA] :=
    engine_returns id sympy_sound sqg (ltnW ltdN) inv_g.
  have [cB eq_cB cub_cB] :=
    engine_returns store_S symengine_sound sqg (ltnW ltdN) inv_g.
  by exists cA, cB.
split; first exact: (engine_overlong id sympy_sound).
exact: (engine_overlong store_S symengine_sound).
Qed.

End Sound.

(** C10. A tensor either function returns has shape dims x dims x dims
    for dims the number of symbols, and each of its cells holds an
    expression object stored by the loop: none holds the Python int 0 of
    the allocation. *)
Theorem result_is_filled (list2d : seq (seq (pyval Sym))) (syms : seq symbol)
    (w : World) (c : tensor Sym) :
  returns reference (list2d, syms) w c \/ returns alternate (list2d, syms) w c ->
  cubic (size syms) c
  /\ forall i j k,
       (i < size syms)%N -> (j < size syms)%N -> (k < size syms)%N ->
       exists e, getitem3 c i j k = Ok (PyExpr e).
Proof.
rewrite /returns call_reference call_alternate.
case=> /christoffels_cells [M [M' [_ _ cub_c cP]]]; split=> // i j k ltid ltjd ltkd.
  have [temp eq_temp ->] := cP i j k ltid ltjd ltkd.
  have := entry_is_expr eq_temp (leq_ltn_trans (leq0n i) ltid).
  by case: temp {eq_temp} => // e _; exists e.
by have [temp _ ->] := cP i j k ltid ltjd ltkd; exists (sympy_S temp).
Qed.

Section Flat.

Hypothesis calc : calculus D.
Hypothesis sympy_sound : sound D denS sympy denS.

Lemma D_0 x : D x 0 = 0.
Proof. by apply: (addrI (D x 0)); rewrite -(D_add calc) !addr0. Qed.

Lemma D_1 x : D x 1 = 0.
Proof.
apply: (addrI (D x 1)); rewrite addr0.
by rewrite -[in RHS](mulr1 1) (D_mul calc) mulr1 mul1r.
Qed.

Lemma D_bool x (b : bool) : D x b%:R = 0.
Proof. by case: b; rewrite ?D_0 ?D_1. Qed.

(** C5. For an identity matrix of any size dims >= 1 as metric, with dims
    symbols, christoffels_reference returns a tensor all of whose entries
    have the value 0. *)
Theorem flat_space_zero (list2d : seq (seq (pyval Sym))) (syms : seq symbol)
    (w : World) :
  let dims := size syms in
  (0 < dims)%N -> square dims list2d ->
  (forall a b, (a < dims)%N -> (b < dims)%N ->
     values (value_of denS) list2d a b = (a == b)%:R) ->
  exists c,
    returns reference (list2d, syms) w c
    /\ forall i j k, (i < dims)%N -> (j < dims)%N -> (k < dims)%N ->
         entry_value denS c i j k = Ok 0.
Proof.
move=> dims lt0d sqg eq_g; have szg : size list2d = dims by case/andP: sqg => /eqP.
have [s0 _] := some_symbol lt0d.
have inv_g : invertible (size list2d) (values (value_of denS) list2d).
  exists (fun a b => (a == b)%:R); rewrite szg.
  by apply: is_inverse_ext (@is_inverse_delta V dims) => // a b lta ltb; rewrite eq_g.
have [c eq_c _] : exists2 c, christoffels sympy id list2d syms = Ok c
                           & cubic (size syms) c.
  by apply: engine_returns sympy_sound _ _ inv_g; rewrite szg.
exists c; split=> [|i j k ltid ltjd ltkd]; first by rewrite /returns call_reference.
have [h [_ _ _ _ ->]] // := engine_values (two_neq0 calc) sympy_sound
                              (fun temp => erefl) s0 eq_c.
congr Ok; rewrite /christoffel_sum big_nat big1 // => n /= ltnd.
by rewrite !eq_g // !D_bool addr0 subr0 mulr0.
Qed.

End Flat.

Section Spherical.

Hypothesis calc : calculus D.
Hypothesis sympy_sound : sound D denS sympy denS.
Variables r theta phi : symbol.
Hypothesis chart : spherical_chart D denS sympy r theta phi.

Let R := denS (as_expr sympy r).
Let S := denS (sin sympy (as_expr sympy theta)).
Let C := denS (cos sympy (as_expr sympy theta)).
Let syms := [:: r; theta; phi].

Let metric : seq (seq (pyval Sym)) :=
  [:: [:: PyInt 1; PyInt 0; PyInt 0];
      [:: PyInt 0; PyExpr (pow sympy (as_expr sympy r) 2); PyInt 0];
      [:: PyInt 0; PyInt 0;
          PyExpr (mul sympy (pow sympy (as_expr sympy r) 2)
                    (pow sympy (sin sympy (as_expr sympy theta)) 2))]].

Let g := values (value_of denS) metric.

Let h0 (a b : nat) : V :=
  match a, b with
  | 0%N, 0%N => 1
  | 1%N, 1%N => R ^- 2
  | 2%N, 2%N => (R ^+ 2 * S ^+ 2)^-1
  | _, _ => 0
  end.

Lemma spherical_metric_syms : spherical_metric sympy syms = Ok metric.
Proof. by []. Qed.

Lemma spherical_inverse : is_inverse 3 g h0.
Proof.
have R0 : R != 0 := r_neq0 chart.
have S0 : S != 0 := sin_neq0 chart.
move=> a c lta ltc; rewrite /index_iota /= !big_cons big_nil.
rewrite /g /values /h0.
case: a lta => [|[|[|a]]] // _; case: c ltc => [|[|[|c]]] // _ /=;
  rewrite ?(den_mul sympy_sound) ?(den_square chart) -/R -/S ?mulr0z ?mulr1z;
  by field.
Qed.

Lemma spherical_sum i j k :
  (i < 3)%N -> (j < 3)%N -> (k < 3)%N ->
  christoffel_sum D 3 g h0 (nth r syms) i j k = spherical_closed_form R S C i j k.
Proof.
have R0 : R != 0 := r_neq0 chart.
have S0 : S != 0 := sin_neq0 chart.
have neq20 : 2%:R != 0 :> V := two_neq0 calc.
move=> lti ltj ltk; rewrite /christoffel_sum /index_iota /= !big_cons big_nil.
rewrite /g /values /h0.
case: i lti => [|[|[|i]]] // _; case: j ltj => [|[|[|j]]] // _;
  case: k ltk => [|[|[|k]]] // _ /=;
  rewrite ?mulr0z ?mulr1z ?(den_mul sympy_sound) ?(den_square chart) ?expr2
    ?(D_mul calc) ?(D_0 calc) ?(D_1 calc)
    ?(D_r_r chart) ?(D_theta_r chart) ?(D_phi_r chart)
    ?(D_r_sin chart) ?(D_theta_sin chart) ?(D_phi_sin chart) -/R -/S -/C;
  by field.
Qed.

Lemma spherical_engine (E : Type) (K : backend symbol Sym E) (den : E -> V)
    (store : pyval E -> pyval Sym) :
  sound D denS K den ->
  (forall temp, value_of denS (store temp) = value_of den temp) ->
  exists2 c, christoffels K store metric syms = Ok c
    & forall i j k, (i < 3)%N -> (j < 3)%N -> (k < 3)%N ->
        entry_value denS c i j k = Ok (spherical_closed_form R S C i j k).
Proof.
move=> snd den_store.
have inv_g : invertible (size metric) (values (value_of denS) metric).
  by exists h0; apply: spherical_inverse.
have [c eq_c _] := engine_returns store (list2d := metric) (syms := syms) snd isT isT inv_g.
exists c => // i j k lti ltj ltk.
have [h [_ _ inv_h _ ->]] // :=
  engine_values (two_neq0 calc) snd den_store r eq_c.
congr Ok; rewrite -spherical_sum //.
apply: (@christoffel_sum_ext _ _ _ D denS metric 3 h h0 _ i j k 3) => //.
exact: is_inverse_unique inv_h spherical_inverse.
Qed.

Hypothesis symengine_sound : sound D denS symengine denE.
Hypothesis S_sound : forall temp, denS (sympy_S temp) = value_of denE temp.

(** C2. With the metric diag(1, r^2, r^2 sin(theta)^2) and the symbols
    (r, theta, phi), the driver obtains from each function a tensor whose
    entries have the values of the closed form: -r at [0][1][1], 1/r at
    [1][0][1], [1][1][0], [2][0][2] and [2][2][0], -r sin(theta)^2 at
    [0][2][2], -sin(theta) cos(theta) at [1][2][2], cos(theta)/sin(theta)
    at [2][1][2] and [2][2][1], and 0 elsewhere. *)
Theorem spherical_christoffels (w : World) :
  exists ch_reference ch_symengine,
    (main sympy symengine sympy_S w).1 = Ok (ch_reference, ch_symengine)
    /\ forall i j k, (i < 3)%N -> (j < 3)%N -> (k < 3)%N ->
         entry_value denS ch_reference i j k
         = Ok (spherical_closed_form R S C i j k)
         /\ entry_value denS ch_symengine i j k
            = Ok (spherical_closed_form R S C i j k).
Proof.
have [cA eq_cA cAP] := spherical_engine sympy_sound (fun temp => erefl).
have [cB eq_cB cBP] := spherical_engine (store := store_S) symengine_sound S_sound.
exists cA, cB; split=> [|i j k lti ltj ltk]; last by rewrite cAP ?cBP.
rewrite /main (symbols_names chart) spherical_metric_syms.
rewrite /christoffels_reference /christoffels_symengine /timeit /function_timer.
by rewrite /pure /= eq_cA /= eq_cB.
Qed.

End Spherical.

End Claims.

(* ---------------------------------------------------------------------- *)
(** ** A metric without inverse                                            *)
(* ---------------------------------------------------------------------- *)




Section Inversion.

Variables (symbol Sym E : Type) (K : backend symbol Sym E).
Variable store : pyval E -> pyval Sym.
Variables (list2d : seq (seq (pyval Sym))) (syms : seq symbol).

Let dims := size syms.



Variables (V : fieldType) (D : symbol -> V -> V) (denS : Sym -> V).
Variable den : E -> V.



End Inversion.

Section Singular.

Variables (symbol Sym SE : Type) (V : fieldType) (D : symbol -> V -> V).
Variables (denS : Sym -> V) (denE : SE -> V).
Variable sympy : sympy_module symbol Sym.
Variable symengine : backend symbol Sym SE.
Variable sympy_S : pyval SE -> Sym.
Variables (list2d : seq (seq (pyval Sym))) (syms : seq symbol) (w : World).

Let reference := christoffels_reference sympy.
Let alternate := christoffels_symengine symengine sympy_S.
Let dims := size syms.
Let g := values (value_of denS) list2d.


End Singular.

(* ---------------------------------------------------------------------- *)
(** ** Derivations of polynomials and of fractions                         *)
(* ---------------------------------------------------------------------- *)

Local Notation "x %:F" := (tofrac x).

Section Derivations.

Variable R : nzRingType.
Variable d : R -> R.
Hypothesis dD : forall x y, d (x + y) = d x + d y.
Hypothesis dM : forall x y, d (x * y) = d x * y + x * d y.

Lemma der0 : d 0 = 0.
Proof. by apply: (addrI (d 0)); rewrite -dD !addr0. Qed.

Lemma der1 : d 1 = 0.
Proof.
by apply: (addrI (d 1)); rewrite addr0 -[in RHS](mulr1 1) dM mulr1 mul1r.
Qed.

Lemma coef_map_der (p : {poly R}) i : (map_poly d p)`_i = d p`_i.
Proof. exact/coef_map_id0/der0. Qed.

Lemma map_derD (p q : {poly R}) :
  map_poly d (p + q) = map_poly d p + map_poly d q.
Proof. by apply/polyP => i; rewrite coefD !coef_map_der coefD dD. Qed.

Lemma map_derM (p q : {poly R}) :
  map_poly d (p * q) = map_poly d p * q + p * map_poly d q.
Proof.
apply/polyP => i; rewrite coefD coef_map_der !coefM.
rewrite (big_morph d dD der0) -big_split /=.
by apply: eq_bigr => j _; rewrite dM !coef_map_der.
Qed.

Lemma map_derC (a : R) : map_poly d a%:P = (d a)%:P.
Proof. by apply/polyP => i; rewrite coef_map_der !coefC; case: eqP => // _; rewrite der0. Qed.

Lemma map_derX : map_poly d 'X = 0.
Proof.
by apply/polyP => i; rewrite coef_map_der coefX coef0; case: eqP => _;
  rewrite ?der0 ?der1.
Qed.

End Derivations.

Section FractionDerivations.

Variable R : idomainType.
Variable d : R -> R.
Hypothesis dD : forall x y, d (x + y) = d x + d y.
Hypothesis dM : forall x y, d (x * y) = d x * y + x * d y.

Local Notation dF := (frac_der d).

Lemma frac_repr (x : {fraction R}) :
  x * (\d_(repr x))%:F = (\n_(repr x))%:F.
Proof.
rewrite -{1}[x]reprK; set f := repr x; unlock tofrac.
rewrite -[LHS]FracField.pi_mul; apply/eqmodP.
rewrite /= FracField.equivfE /FracField.mulf /=.
rewrite !numden_Ratio ?mulf_neq0 ?denom_ratioP ?oner_neq0 //.
by rewrite !mulr1 mulrC.
Qed.

Lemma frac_quot (x : {fraction R}) : exists a b, b != 0 /\ x = a%:F / b%:F.
Proof.
exists (\n_(repr x)), (\d_(repr x)); split; first exact: denom_ratioP.
by rewrite -frac_repr mulfK // tofrac_eq0 denom_ratioP.
Qed.

Lemma frac_der_quot (a b : R) :
  b != 0 -> dF (a%:F / b%:F) = (d a * b - a * d b)%:F / (b ^+ 2)%:F.
Proof.
move=> b0; rewrite /frac_der; set x := a%:F / b%:F; set f := repr x.
have m0 : \d_f != 0 by apply: denom_ratioP.
have bF0 : b%:F != 0 :> {fraction R} by rewrite tofrac_eq0.
have mF0 : (\d_f)%:F != 0 :> {fraction R} by rewrite tofrac_eq0.
have eq_ab : a * \d_f = \n_f * b.
  apply/eqP; rewrite -tofrac_eq !tofracM -(frac_repr x) -/f /x.
  by apply/eqP; field.
have eq_d : d a * \d_f + a * d \d_f = d \n_f * b + \n_f * d b.
  by rewrite -!dM eq_ab.
have b2 : (b ^+ 2)%:F != 0 :> {fraction R} by rewrite tofrac_eq0 expf_neq0.
have m2 : (\d_f ^+ 2)%:F != 0 :> {fraction R} by rewrite tofrac_eq0 expf_neq0.
apply/eqP; rewrite eqr_div // -!tofracM tofrac_eq; apply/eqP.
move: eq_ab eq_d; move: (\n_f) (\d_f) => n m eq_ab eq_d.
have eq_dn : d n * b = d a * m + a * d m - n * d b by rewrite eq_d; ring.
have -> : (d n * m - n * d m) * b ^+ 2 = m * b * (d n * b) - n * b * b * d m.
  by ring.
rewrite eq_dn -eq_ab.
have -> : m * b * (d a * m + a * d m - n * d b) - a * m * b * d m
          = d a * m ^+ 2 * b - n * b * m * d b by ring.
by rewrite -eq_ab; ring.
Qed.

Lemma frac_derD x y : dF (x + y) = dF x + dF y.
Proof.
have [a [b [b0 ->]]] := frac_quot x; have [a' [b' [b'0 ->]]] := frac_quot y.
have bF0 : b%:F != 0 :> {fraction R} by rewrite tofrac_eq0.
have b'F0 : b'%:F != 0 :> {fraction R} by rewrite tofrac_eq0.
have -> : a%:F / b%:F + a'%:F / b'%:F = (a * b' + a' * b)%:F / (b * b')%:F.
  by rewrite tofracD !tofracM; field; rewrite bF0 b'F0.
rewrite !frac_der_quot ?mulf_neq0 // !dD !dM.
rewrite !(tofracD, tofracM, tofracB, tofracXn).
by field; rewrite bF0 b'F0.
Qed.

Lemma frac_derM x y : dF (x * y) = dF x * y + x * dF y.
Proof.
have [a [b [b0 ->]]] := frac_quot x; have [a' [b' [b'0 ->]]] := frac_quot y.
have bF0 : b%:F != 0 :> {fraction R} by rewrite tofrac_eq0.
have b'F0 : b'%:F != 0 :> {fraction R} by rewrite tofrac_eq0.
have -> : a%:F / b%:F * (a'%:F / b'%:F) = (a * a')%:F / (b * b')%:F.
  by rewrite !tofracM; field; rewrite bF0 b'F0.
rewrite !frac_der_quot ?mulf_neq0 // !dM.
rewrite !(tofracD, tofracM, tofracB, tofracXn).
by field; rewrite bF0 b'F0.
Qed.

Lemma frac_der_tofrac a : dF a%:F = (d a)%:F.
Proof.
rewrite -[a%:F]divr1 -tofrac1 frac_der_quot ?oner_neq0 // (der1 dM).
by rewrite mulr1 mulr0 subr0 expr1n tofrac1 divr1.
Qed.

End FractionDerivations.

(* ---------------------------------------------------------------------- *)
(** ** The model meets the assumptions                                     *)
(* ---------------------------------------------------------------------- *)

Section ModelDerivations.

Import Model.

Lemma d_rD (p q : P5) : d_r (p + q) = d_r p + d_r q.
Proof. exact: derivD. Qed.

Lemma d_rM (p q : P5) : d_r (p * q) = d_r p * q + p * d_r q.
Proof. exact: derivM. Qed.

Lemma d_thetaD (p q : P5) : d_theta (p + q) = d_theta p + d_theta q.
Proof. by apply: map_derD => x y; rewrite derivD. Qed.

Lemma d_thetaM (p q : P5) : d_theta (p * q) = d_theta p * q + p * d_theta q.
Proof. by apply: map_derM => x y; rewrite ?derivD ?derivM. Qed.

Lemma d_phiD (p q : P5) : d_phi (p + q) = d_phi p + d_phi q.
Proof. by do 2![apply: map_derD => ? ?]; rewrite derivD. Qed.

Lemma d_phiM (p q : P5) : d_phi (p * q) = d_phi p * q + p * d_phi q.
Proof.
apply: map_derM => x y; first by apply: map_derD => ? ?; rewrite derivD.
by apply: map_derM => ? ?; rewrite ?derivD ?derivM.
Qed.

Lemma d_sinD (p q : P5) : d_sin (p + q) = d_sin p + d_sin q.
Proof. by do 3![apply: map_derD => ? ?]; rewrite derivD. Qed.

Lemma d_sinM (p q : P5) : d_sin (p * q) = d_sin p * q + p * d_sin q.
Proof.
apply: map_derM => x y; first by do 2![apply: map_derD => ? ?]; rewrite derivD.
apply: map_derM => ? ?; first by apply: map_derD => ? ?; rewrite derivD.
by apply: map_derM => ? ?; rewrite ?derivD ?derivM.
Qed.

Lemma d_cosD (p q : P5) : d_cos (p + q) = d_cos p + d_cos q.
Proof. by do 4![apply: map_derD => ? ?]; rewrite derivD. Qed.

Lemma d_cosM (p q : P5) : d_cos (p * q) = d_cos p * q + p * d_cos q.
Proof.
apply: map_derM => x y; first by do 3![apply: map_derD => ? ?]; rewrite derivD.
apply: map_derM => ? ?; first by do 2![apply: map_derD => ? ?]; rewrite derivD.
apply: map_derM => ? ?; first by apply: map_derD => ? ?; rewrite derivD.
by apply: map_derM => ? ?; rewrite ?derivD ?derivM.
Qed.

Lemma d_angleD (p q : P5) : d_angle (p + q) = d_angle p + d_angle q.
Proof. by rewrite /d_angle d_thetaD d_sinD d_cosD; ring. Qed.

Lemma d_angleM (p q : P5) : d_angle (p * q) = d_angle p * q + p * d_angle q.
Proof. by rewrite /d_angle d_thetaM d_sinM d_cosM; ring. Qed.

Lemma partialD x u v : partial x (u + v) = partial x u + partial x v.
Proof.
by case: x; apply: frac_derD;
  move=> a b; rewrite ?d_rD ?d_rM ?d_angleD ?d_angleM ?d_phiD ?d_phiM.
Qed.

Lemma partialM x u v : partial x (u * v) = partial x u * v + u * partial x v.
Proof.
by case: x; apply: frac_derM;
  move=> a b; rewrite ?d_rD ?d_rM ?d_angleD ?d_angleM ?d_phiD ?d_phiM.
Qed.

Lemma partial_tofrac x (p : P5) :
  partial x p%:F
  = (match x with Cr => d_r | Ctheta => d_angle | Cphi => d_phi end p)%:F.
Proof.
by case: x; apply: frac_der_tofrac;
  move=> a b; rewrite ?d_rD ?d_rM ?d_angleD ?d_angleM ?d_phiD ?d_phiM.
Qed.

Lemma model_two_neq0 : 2%:R != 0 :> expression.
Proof.
rewrite -(rmorph_nat (@tofrac P5)) tofrac_eq0 -!polyC_natr !polyC_eq0.
by rewrite Num.Theory.pnatr_eq0.
Qed.

Lemma model_calculus : calculus partial.
Proof.
split; [exact: model_two_neq0 | exact: partialD | exact: partialM].
Qed.

End ModelDerivations.

Lemma deriv_der (R : nzRingType) :
  (forall p q : {poly R}, (p + q)^`() = p^`() + q^`())
  /\ (forall p q : {poly R}, (p * q)^`() = p^`() * q + p * q^`()).
Proof. by split=> p q; rewrite ?derivD ?derivM. Qed.

Lemma map_der (R : nzRingType) (d : R -> R) :
  (forall x y, d (x + y) = d x + d y)
  /\ (forall x y, d (x * y) = d x * y + x * d y) ->
  (forall p q, map_poly d (p + q) = map_poly d p + map_poly d q)
  /\ (forall p q, map_poly d (p * q) = map_poly d p * q + p * map_poly d q).
Proof. by case=> dD dM; split; [exact: map_derD | exact: map_derM]. Qed.

Section ModelChart.

Import Model.

Let der1_ := deriv_der.
Let der2_ (R : nzRingType) := map_der (deriv_der R).
Let der3_ (R : nzRingType) := map_der (der2_ R).
Let der4_ (R : nzRingType) := map_der (der3_ R).

Lemma d_theta_r : d_theta X_r = 0.
Proof. by case: (der1_ P3) => dD dM; apply: map_derX. Qed.

Lemma d_phi_r : d_phi X_r = 0.
Proof. by case: (der2_ P2) => dD dM; apply: map_derX. Qed.

Lemma d_sin_r : d_sin X_r = 0.
Proof. by case: (der3_ P1) => dD dM; apply: map_derX. Qed.

Lemma d_cos_r : d_cos X_r = 0.
Proof. by case: (der4_ rat) => dD dM; apply: map_derX. Qed.

Lemma d_r_sin : d_r X_sin = 0.
Proof. exact: derivC. Qed.

Lemma d_theta_sin : d_theta X_sin = 0.
Proof.
case: (der1_ P3) => dD _.
by rewrite /d_theta /X_sin (map_derC dD) derivC.
Qed.

Lemma d_phi_sin : d_phi X_sin = 0.
Proof.
case: (der2_ P2) => dD2 _; case: (der1_ P2) => dD1 _.
by rewrite /d_phi /X_sin (map_derC dD2) (map_derC dD1) derivC !polyC0.
Qed.

Lemma d_sin_sin : d_sin X_sin = 1.
Proof.
case: (der3_ P1) => dD3 _; case: (der2_ P1) => dD2 _; case: (der1_ P1) => dD1 _.
by rewrite /d_sin /X_sin (map_derC dD3) (map_derC dD2) (map_derC dD1) derivX !polyC1.
Qed.

Lemma d_cos_sin : d_cos X_sin = 0.
Proof.
case: (der4_ rat) => dD4 _; case: (der3_ rat) => dD3 _.
case: (der2_ rat) => dD2 _; case: (der1_ rat) => dD1 dM1.
rewrite /d_cos /X_sin (map_derC dD4) (map_derC dD3) (map_derC dD2).
by rewrite (map_derX dD1 dM1) !polyC0.
Qed.

Lemma d_angle_r : d_angle X_r = 0.
Proof. by rewrite /d_angle d_theta_r d_sin_r d_cos_r !mulr0 subr0 addr0. Qed.

Lemma d_angle_sin : d_angle X_sin = X_cos.
Proof.
by rewrite /d_angle d_theta_sin d_sin_sin d_cos_sin mulr1 mulr0 subr0 add0r.
Qed.

Lemma sin_theta : sin sympy (as_expr sympy Ctheta) = X_sin%:F.
Proof. by rewrite /= eqxx. Qed.

Lemma cos_theta : cos sympy (as_expr sympy Ctheta) = X_cos%:F.
Proof. by rewrite /= eqxx. Qed.

Lemma model_chart : spherical_chart partial id sympy Cr Ctheta Cphi.
Proof.
split; rewrite ?sin_theta ?cos_theta //.
- by rewrite tofrac_eq0 polyX_eq0.
- by rewrite tofrac_eq0 !polyC_eq0 polyX_eq0.
- by rewrite partial_tofrac /d_r derivX tofrac1.
- by rewrite partial_tofrac d_angle_r tofrac0.
- by rewrite partial_tofrac d_phi_r tofrac0.
- by rewrite partial_tofrac d_r_sin tofrac0.
- by rewrite partial_tofrac d_angle_sin.
- by rewrite partial_tofrac d_phi_sin tofrac0.
Qed.

End ModelChart.

Section ModelKernel.

Import Model.

Lemma values_id (M : seq (seq expression)) a b :
  values id M a b = nth 0 (nth [::] M a) b.
Proof. by rewrite /values map_id. Qed.

Lemma to_mx_values n (M : seq (seq expression)) :
  \matrix_(a < n, b < n) values id M a b = to_mx n M.
Proof. by apply/matrixP => a b; rewrite !mxE values_id. Qed.

Lemma mx_entry_ord n (A : 'M[expression]_n) (a b : 'I_n) : mx_entry A a b = A a b.
Proof.
rewrite /mx_entry; case: insubP => [i _ eq_i | ]; last by rewrite ltn_ord.
case: insubP => [j _ eq_j | ]; last by rewrite ltn_ord.
by rewrite (val_inj eq_i) (val_inj eq_j).
Qed.

Lemma of_mx_values n (A : 'M[expression]_n) :
  \matrix_(a < n, b < n) values id (of_mx A) a b = A.
Proof.
apply/matrixP => a b; rewrite !mxE values_id /of_mx.
by rewrite nth_mkseq // nth_mkseq // mx_entry_ord.
Qed.

Lemma square_of_mx n (A : 'M[expression]_n) : square n (of_mx A).
Proof.
rewrite /square /of_mx size_mkseq eqxx /= /mkseq all_map.
by apply/allP => a _ /=; rewrite size_map size_iota.
Qed.

Lemma invert_inverse M M' :
  invert M = Ok M' ->
  [/\ square (size M) M, square (size M) M' &
      is_inverse (size M) (values id M) (values id M')].
Proof.
rewrite /invert; case: ifP => // /negbFE sqM; case: ifP => // unitM [<-].
split=> //; first exact: square_of_mx.
by apply/is_inverse_mx; rewrite to_mx_values of_mx_values mulmxV.
Qed.

Lemma invert_unit M :
  square (size M) M -> invertible (size M) (values id M) ->
  invert M = Ok (of_mx (invmx (to_mx (size M) M))).
Proof.
move=> sqM [h /is_inverse_mx]; rewrite to_mx_values => /mulmx1_unit [unitM _].
by rewrite /invert sqM unitM.
Qed.


Lemma build_square m :
  square (size m) m -> build m = Ok [seq [seq convert a | a <- row] | row <- m].
Proof.
rewrite /build /square; case: m => [|row m] //.
set n := size (row :: m) => /andP [_ sqm].
have /andP [/eqP sz_row _] : (size row == n) && all (fun r => size r == n) m.
  exact: sqm.
by rewrite (@eq_all _ _ (fun r => size r == n)) ?sqm // => r /=; rewrite sz_row.
Qed.

Lemma model_sound : sound partial id kernel id.
Proof.
split=> //.
- move=> m M; rewrite /= /build; case: ifP => // _ [<-].
  by rewrite (eq_map (@map_id _)) map_id.
- by move=> m /build_square eq_m; eexists; exact: eq_m.
- exact: invert_inverse.
- by move=> M sqM /(invert_unit sqM) eq_M; eexists; exact: eq_M.
Qed.

Lemma values_slow (M : seq (seq fast_expression)) a b :
  values slow M a b = values id [seq [seq slow e | e <- row] | row <- M] a b.
Proof. by rewrite values_id values_map. Qed.

Lemma square_map (T U : Type) (f : T -> U) n (M : seq (seq T)) :
  square n [seq [seq f e | e <- row] | row <- M] = square n M.
Proof.
rewrite /square size_map all_map; congr (_ && _).
by apply: eq_all => row /=; rewrite size_map.
Qed.

Lemma slow_Fast (M : seq (seq expression)) :
  [seq [seq slow e | e <- row] | row <- [seq [seq Fast e | e <- row] | row <- M]]
  = M.
Proof.
rewrite -map_comp (@eq_map _ _ _ id) ?map_id // => row /=.
by rewrite -map_comp (@eq_map _ _ _ id) ?map_id.
Qed.

Lemma model_fast_sound : sound partial id symengine slow.
Proof.
split=> //.
- move=> m M; rewrite /= /build; case: ifP => // _ [<-].
  by rewrite slow_Fast.
- by move=> m /build_square eq_m; eexists; rewrite /= eq_m.
- move=> M M' /=; set M0 := [seq _ | row <- M].
  case eq_M0: (invert M0) => [M1|] //= [<-].
  have [sqM0 sqM1 inv_M0] := invert_inverse eq_M0.
  rewrite /M0 size_map square_map in sqM0 sqM1 inv_M0.
  split=> //; first by rewrite square_map.
  apply: is_inverse_ext inv_M0 => a b _ _; first by rewrite values_slow.
  by rewrite values_slow slow_Fast.
- move=> M sqM inv_M /=; set M0 := [seq _ | row <- M].
  have sqM0 : square (size M0) M0 by rewrite /M0 size_map square_map.
  have inv_M0 : invertible (size M0) (values id M0).
    case: inv_M => h inv_M; exists h; rewrite /M0 size_map.
    by apply: is_inverse_ext inv_M => // a b _ _; rewrite values_slow.
  by rewrite (invert_unit sqM0 inv_M0) /=; eexists.
Qed.

Lemma model_S_sound temp : id (sympy_S temp) = value_of slow temp.
Proof. by case: temp. Qed.

End ModelKernel.

(* ---------------------------------------------------------------------- *)
(** ** The statements at the model                                         *)
(* ---------------------------------------------------------------------- *)

Lemma identity2_values (Sym : Type) (V : fieldType) (denS : Sym -> V) a b :
  (a < 2)%N -> (b < 2)%N ->
  values (value_of denS) [:: [:: PyInt 1; PyInt 0]; [:: PyInt 0; PyInt 1]] a b
  = (a == b)%:R.
Proof. by case: a => [|[|a]] //; case: b => [|[|b]]. Qed.

Lemma identity2_invertible (Sym : Type) (V : fieldType) (denS : Sym -> V) :
  invertible 2
    (values (value_of denS) [:: [:: PyInt 1; PyInt 0]; [:: PyInt 0; PyInt 1]]).
Proof.
exists (fun a b => (a == b)%:R).
by apply: is_inverse_ext (@is_inverse_delta V 2) => // a b lta ltb;
  rewrite identity2_values.
Qed.


Lemma model_sympy_sound : sound Model.partial id Model.sympy id.
Proof. exact: model_sound. Qed.

Lemma model_metric_returns :
  exists cA cB,
    returns (christoffels_reference Model.sympy)
      (Model.metric, Model.coordinates) Model.world cA
    /\ returns (christoffels_symengine Model.symengine Model.sympy_S)
         (Model.metric, Model.coordinates) Model.world cB.
Proof.
have [cA eq_cA _] :=
  spherical_engine model_calculus model_sympy_sound model_chart
    model_sympy_sound (store := id) (fun temp => erefl).
have [cB eq_cB _] :=
  spherical_engine model_calculus model_sympy_sound model_chart model_fast_sound
    (store := fun temp => PyExpr (Model.sympy_S temp)) model_S_sound.
by exists cA, cB; rewrite /returns call_reference call_alternate.
Qed.

Lemma backends_agree_witness :
  exists cA cB,
    [/\ returns (christoffels_reference Model.sympy)
          (Model.metric, Model.coordinates) Model.world cA,
        returns (christoffels_symengine Model.symengine Model.sympy_S)
          (Model.metric, Model.coordinates) Model.world cB
      & forall i j k, (i < 3)%N -> (j < 3)%N -> (k < 3)%N ->
          exists v, entry_value id cA i j k = Ok v
                    /\ entry_value id cB i j k = Ok v].
Proof.
have [cA [cB [ret_cA ret_cB]]] := model_metric_returns.
exists cA, cB; split=> //.
exact: (backends_agree model_two_neq0 model_sympy_sound model_fast_sound
          model_S_sound ret_cA ret_cB).
Defined.

Lemma spherical_christoffels_witness :
  [/\ calculus Model.partial,
      spherical_chart Model.partial id Model.sympy Model.Cr Model.Ctheta Model.Cphi
    & exists ch_reference ch_symengine,
        (main Model.sympy Model.symengine Model.sympy_S Model.world).1
        = Ok (ch_reference, ch_symengine)
        /\ forall i j k, (i < 3)%N -> (j < 3)%N -> (k < 3)%N ->
             entry_value id ch_reference i j k
             = Ok (spherical_closed_form (as_expr Model.sympy Model.Cr)
                     (sin Model.sympy (as_expr Model.sympy Model.Ctheta))
                     (cos Model.sympy (as_expr Model.sympy Model.Ctheta)) i j k)
             /\ entry_value id ch_symengine i j k
                = Ok (spherical_closed_form (as_expr Model.sympy Model.Cr)
                        (sin Model.sympy (as_expr Model.sympy Model.Ctheta))
                        (cos Model.sympy (as_expr Model.sympy Model.Ctheta)) i j k)].
Proof.
split; [exact: model_calculus | exact: model_chart | ].
exact: (spherical_christoffels model_calculus model_sympy_sound model_chart
          model_fast_sound model_S_sound Model.world).
Defined.

Lemma reference_entry_formula_witness :
  exists h,
    [/\ square 3 Model.metric,
        is_inverse 3 (values (value_of id) Model.metric) h
      & exists c,
          returns (christoffels_reference Model.sympy)
            (Model.metric, Model.coordinates) Model.world c
          /\ forall i j k, (i < 3)%N -> (j < 3)%N -> (k < 3)%N ->
               exists e, getitem3 c i j k = Ok (PyExpr e)
                         /\ e = christoffel_sum Model.partial 3
                                  (values (value_of id) Model.metric) h
                                  (nth Model.Cr Model.coordinates) i j k].
Proof.
eexists; split; first by [].
  exact: (spherical_inverse model_sympy_sound model_chart).
exact: (reference_entry_formula model_two_neq0 model_sympy_sound Model.Cr
          Model.world (isT : square (size Model.coordinates) Model.metric)
          (spherical_inverse model_sympy_sound model_chart)).
Defined.

Lemma model_metric_symmetric a b :
  (a < 3)%N -> (b < 3)%N ->
  values (value_of id) Model.metric a b = values (value_of id) Model.metric b a.
Proof. by case: a => [|[|[|a]]] //; case: b => [|[|[|b]]]. Qed.

Lemma symmetric_in_lower_indices_witness :
  exists c,
    [/\ forall a b, (a < 3)%N -> (b < 3)%N ->
          values (value_of id) Model.metric a b
          = values (value_of id) Model.metric b a,
        returns (christoffels_reference Model.sympy)
          (Model.metric, Model.coordinates) Model.world c
      & forall i j k, (i < 3)%N -> (j < 3)%N -> (k < 3)%N ->
          exists v, entry_value id c i j k = Ok v
                    /\ entry_value id c i k j = Ok v].
Proof.
have [cA [_ [ret_cA _]]] := model_metric_returns.
exists cA; split=> //; first exact: model_metric_symmetric.
exact: (symmetric_in_lower_indices model_two_neq0 model_sympy_sound
          model_fast_sound model_S_sound (list2d := Model.metric)
          (syms := Model.coordinates) model_metric_symmetric
          (or_introl ret_cA)).
Defined.

Lemma flat_space_zero_witness :
  [/\ (0 < 2)%N, square 2 Model.identity2
    & exists c,
        returns (christoffels_reference Model.sympy)
          (Model.identity2, [:: Model.Cr; Model.Ctheta]) Model.world c
        /\ forall i j k, (i < 2)%N -> (j < 2)%N -> (k < 2)%N ->
             entry_value id c i j k = Ok 0].
Proof.
split=> //.
exact: (@flat_space_zero _ _ _ _ _ _ model_calculus model_sympy_sound
          Model.identity2 [:: Model.Cr; Model.Ctheta] Model.world isT isT
          (@identity2_values _ _ id)).
Defined.

Lemma no_shape_check_witness :
  [/\ square 2 Model.identity2,
      invertible 2 (values (value_of id) Model.identity2),
      exists cA cB,
        [/\ returns (christoffels_reference Model.sympy)
              (Model.identity2, [:: Model.Cr]) Model.world cA,
            returns (christoffels_symengine Model.symengine Model.sympy_S)
              (Model.identity2, [:: Model.Cr]) Model.world cB,
            cubic 1 cA & cubic 1 cB]
    & raises (christoffels_reference Model.sympy)
        (Model.identity2, Model.coordinates) Model.world IndexError
      /\ raises (christoffels_symengine Model.symengine Model.sympy_S)
           (Model.identity2, Model.coordinates) Model.world IndexError].
Proof.
split=> //; first exact: identity2_invertible.
  exact: (proj1 (no_shape_check Model.sympy_S model_sympy_sound
                   model_fast_sound [:: Model.Cr] Model.world
                   (isT : square (size Model.identity2) Model.identity2)
                   (@identity2_invertible _ _ id)) isT).
exact: (proj2 (no_shape_check Model.sympy_S model_sympy_sound
                 model_fast_sound Model.coordinates Model.world
                 (isT : square (size Model.identity2) Model.identity2)
                 (@identity2_invertible _ _ id)) isT).
Defined.

(** C6 as the specification states it fails: with the 2 x 2 identity as
    metric and the single symbol r, the number of symbols differs from the
    size of the metric, and christoffels_reference returns a tensor, of
    shape 1 x 1 x 1. *)
Lemma shape_mismatch_returns :
  size [:: Model.Cr] != size Model.identity2
  /\ exists c,
       returns (christoffels_reference Model.sympy)
         (Model.identity2, [:: Model.Cr]) Model.world c
       /\ cubic 1 c.
Proof.
split=> //.
have [c eq_c cub_c] :=
  engine_returns id (list2d := Model.identity2) (syms := [:: Model.Cr])
    model_sympy_sound isT isT (@identity2_invertible _ _ id).
by exists c; rewrite /returns call_reference.
Qed.

(* ---------------------------------------------------------------------- *)
(** ** A metric without inverse, at the model                              *)
(* ---------------------------------------------------------------------- *)

Section ModelSingular.

Import Model.



(** Where the matrix has an inverse the cofactor formula gives it: the
    back end [unchecked] differs from the second one on matrices without
    inverse only. *)
Lemma cofactor_inverse_unit (M : seq (seq expression)) :
  square (size M) M -> invertible (size M) (values id M) ->
  cofactor_inverse M = invert M.
Proof.
move=> sqM [h /is_inverse_mx]; rewrite to_mx_values => /mulmx1_unit [unitM _].
by rewrite /cofactor_inverse /invert sqM unitM /= /invmx unitM.
Qed.

Lemma unchecked_inverts (M : seq (seq fast_expression)) :
  square (size M) M -> invertible (size M) (values slow M) ->
  inv unchecked M = inv symengine M.
Proof.
move=> sqM [h inv_M] /=; rewrite cofactor_inverse_unit //.
  by rewrite size_map square_map.
exists h; rewrite size_map.
by apply: is_inverse_ext inv_M => // a b _ _; rewrite values_slow.
Qed.



End ModelSingular.





Lemma result_is_filled_witness :
  exists c,
    [/\ returns (christoffels_reference Model.sympy)
          (Model.metric, Model.coordinates) Model.world c,
        cubic 3 c
      & forall i j k, (i < 3)%N -> (j < 3)%N -> (k < 3)%N ->
          exists e, getitem3 c i j k = Ok (PyExpr e)].
Proof.
have [cA [_ [ret_cA _]]] := model_metric_returns.
have [cub_c cP] :=
  result_is_filled (symengine := Model.symengine) (sympy_S := Model.sympy_S)
    (or_introl ret_cA).
by exists cA.
Defined.

(* ====================================================================== *)
(** * More of what the code does                                           *)
(* ====================================================================== *)

(* ---------------------------------------------------------------------- *)
(** ** The order of the enumeration                                        *)
(* ---------------------------------------------------------------------- *)

Lemma iota_blocks d m :
  iota 0 (d * m) = flatten [seq iota (i * m) m | i <- iota 0 d].
Proof.
elim: d => [|d IH] //.
rewrite mulSn addnC iotaD add0n IH -addn1 iotaD add0n map_cat flatten_cat /=.
by rewrite cats0.
Qed.

Lemma map_blocks (T : Type) (f : nat -> T) d m :
  [seq f t | t <- iota 0 (d * m)]
  = flatten [seq [seq f (i * m + u)%N | u <- iota 0 m] | i <- iota 0 d].
Proof.
rewrite iota_blocks map_flatten -map_comp; congr flatten.
apply: eq_map => i /=; rewrite -{1}[(i * m)%N]addn0 iotaDl -map_comp.
exact: eq_map.
Qed.

(** X1. The counters visit the triples in the order of three nested loops
    over i, j and k, each from 0 to dims - 1, k varying fastest. *)
Theorem counters_in_nested_order (dims : nat) :
  [seq triple dims t | t <- _counterlist dims] = nested_triples dims.
Proof.
rewrite /_counterlist /nested_triples expnS map_blocks; congr flatten.
apply/eq_in_map => i; rewrite mem_iota add0n /= => ltid.
rewrite expnS expn1 map_blocks; congr flatten.
apply/eq_in_map => j; rewrite mem_iota add0n /= => ltjd.
apply/eq_in_map => k; rewrite mem_iota add0n /= => ltkd.
rewrite -(triple_counter ltid ltjd ltkd) /counter /=; congr (triple _ _).
by rewrite mulnDl mulnA addnA.
Qed.

(** X2. For a counter t below dims^3 the triple (i, j, k) of lines 47-49
    gives t back as (i * dims + j) * dims + k, and the triple read off
    (i * dims + j) * dims + k is (i, j, k) when i, j, k are below dims. *)
Theorem counter_round_trip (dims : nat) :
  {in [pred t | (t < dims ^ 3)%N], cancel (triple dims) (counter dims)}
  /\ {in [pred ijk | [&& (ijk.1.1 < dims)%N, (ijk.1.2 < dims)%N
                        & (ijk.2 < dims)%N]],
        cancel (counter dims) (triple dims)}.
Proof.
split=> [t | [[i j] k] /and3P [ltid ltjd ltkd]]; first exact: counter_triple.
exact: triple_counter.
Qed.

(* ---------------------------------------------------------------------- *)
(** ** Exceptions and edge cases of the two functions                      *)
(* ---------------------------------------------------------------------- *)

Lemma christoffels_inversion (symbol Sym E : Type) (K : backend symbol Sym E)
    (store : pyval E -> pyval Sym) (list2d : seq (seq (pyval Sym)))
    (syms : seq symbol) :
  christoffels K store list2d syms
  = Let mat_inv := inversion K list2d in
    for_each (loop_body K store mat_inv list2d syms) (_counterlist (size syms))
      (zeros3 Sym (size syms)).
Proof. by rewrite /christoffels /inversion; case: (Matrix K list2d). Qed.

(** X3. With an empty list of symbols both functions still build and
    invert the matrix: they return the empty tensor when that succeeds and
    raise its exception when it does not. *)
Theorem no_symbols (symbol Sym SE : Type) (sympy : sympy_module symbol Sym)
    (symengine : backend symbol Sym SE) (sympy_S : pyval SE -> Sym)
    (list2d : seq (seq (pyval Sym))) (w : World) :
  (call (christoffels_reference sympy) (list2d, [::]) w).1
  = (Let mat_inv := inversion sympy list2d in Ok [::])
  /\ (call (christoffels_symengine symengine sympy_S) (list2d, [::]) w).1
     = (Let mat_inv := inversion symengine list2d in Ok [::]).
Proof. by rewrite call_reference call_alternate !christoffels_inversion. Qed.

(** X4. An exception of the construction of the matrix or of its
    inversion leaves either function as it is, whatever the symbols: the
    loop is not entered. *)
Theorem inversion_errors_propagate (symbol Sym SE : Type)
    (sympy : sympy_module symbol Sym) (symengine : backend symbol Sym SE)
    (sympy_S : pyval SE -> Sym) (list2d : seq (seq (pyval Sym)))
    (syms : seq symbol) (w : World) (eA eB : exception) :
  inversion sympy list2d = Raise eA ->
  inversion symengine list2d = Raise eB ->
  raises (christoffels_reference sympy) (list2d, syms) w eA
  /\ raises (christoffels_symengine symengine sympy_S) (list2d, syms) w eB.
Proof.
move=> eq_eA eq_eB.
by rewrite /raises call_reference call_alternate !christoffels_inversion
     eq_eA eq_eB.
Qed.

Lemma loop_raises (symbol Sym E : Type) (K : backend symbol Sym E)
    (store : pyval E -> pyval Sym) (V : fieldType) (D : symbol -> V -> V)
    (denS : Sym -> V) (den : E -> V) (list2d : seq (seq (pyval Sym)))
    (syms : seq symbol) (mat_inv : seq (seq E)) (e : exception) :
  sound D denS K den ->
  inversion K list2d = Ok mat_inv ->
  christoffels K store list2d syms = Raise e ->
  e = IndexError /\ (size list2d < size syms)%N.
Proof.
move=> snd; rewrite /inversion.
case eq_M: (Matrix K list2d) => [M|] //= eq_M' eq_e.
have [sqM sqM' _] := inv_inverse snd eq_M'.
have szM : size M = size list2d.
  by rewrite -(size_map (map den)) (Matrix_values snd eq_M) size_map.
rewrite szM in sqM sqM'; rewrite (Matrix_shape snd _ eq_M) in sqM.
case: (leqP (size syms) (size list2d)) => [ledN | ltNd].
  case: syms ledN eq_e => [_ | s0 syms' ledN].
    by rewrite /christoffels eq_M /= eq_M'.
  have [c [-> _ _]] := christoffels_Ok store s0 eq_M eq_M' sqM' sqM ledN.
  by [].
by rewrite (christoffels_overlong store eq_M eq_M' sqM' sqM ltNd) in eq_e; case: eq_e.
Qed.

(** X5. Once the matrix has been inverted, the only exception either
    function can raise is IndexError, and it raises it only when there
    are more symbols than rows of the metric. *)
Theorem loop_raises_only_IndexError (symbol Sym SE : Type) (V : fieldType)
    (D : symbol -> V -> V) (denS : Sym -> V) (denE : SE -> V)
    (sympy : sympy_module symbol Sym) (symengine : backend symbol Sym SE)
    (sympy_S : pyval SE -> Sym) (list2d : seq (seq (pyval Sym)))
    (syms : seq symbol) (w : World) (MA : seq (seq Sym)) (MB : seq (seq SE))
    (e : exception) :
  sound D denS sympy denS -> sound D denS symengine denE ->
  inversion sympy list2d = Ok MA -> inversion symengine list2d = Ok MB ->
  raises (christoffels_reference sympy) (list2d, syms) w e
  \/ raises (christoffels_symengine symengine sympy_S) (list2d, syms) w e ->
  e = IndexError /\ (size list2d < size syms)%N.
Proof.
move=> sndA sndB eq_MA eq_MB; rewrite /raises call_reference call_alternate.
by case; [exact: loop_raises sndA eq_MA | exact: loop_raises sndB eq_MB].
Qed.

(* ---------------------------------------------------------------------- *)
(** ** When the functions return, and what                                 *)
(* ---------------------------------------------------------------------- *)

Lemma engine_returns_iff (symbol Sym E : Type) (K : backend symbol Sym E)
    (store : pyval E -> pyval Sym) (V : fieldType) (D : symbol -> V -> V)
    (denS : Sym -> V) (den : E -> V) (list2d : seq (seq (pyval Sym)))
    (syms : seq symbol) :
  sound D denS K den ->
  (exists c, christoffels K store list2d syms = Ok c)
  <-> [/\ square (size list2d) list2d, (size syms <= size list2d)%N
        & invertible (size list2d) (values (value_of denS) list2d)].
Proof.
move=> snd; split=> [[c eq_c] | [sqg ledN inv_g]]; last first.
  by have [c eq_c _] := engine_returns store snd sqg ledN inv_g; exists c.
have [M [M' [eq_M eq_M' _ _]]] := christoffels_cells eq_c.
have [sqg sqM' inv_g] := inv_Matrix snd eq_M eq_M'.
split=> //; last by exists (values den M').
rewrite leqNgt; apply/negP => ltNd.
by rewrite (christoffels_overlong store eq_M eq_M' sqM' sqg ltNd) in eq_c.
Qed.

(** X6. For sound back ends, either function returns a tensor exactly
    when the metric is square, has an inverse, and has at least as many
    rows as there are symbols. *)
Theorem returns_iff (symbol Sym SE : Type) (V : fieldType)
    (D : symbol -> V -> V) (denS : Sym -> V) (denE : SE -> V)
    (sympy : sympy_module symbol Sym) (symengine : backend symbol Sym SE)
    (sympy_S : pyval SE -> Sym) (list2d : seq (seq (pyval Sym)))
    (syms : seq symbol) (w : World) :
  sound D denS sympy denS -> sound D denS symengine denE ->
  let valid :=
    [/\ square (size list2d) list2d, (size syms <= size list2d)%N
      & invertible (size list2d) (values (value_of denS) list2d)] in
  ((exists c, returns (christoffels_reference sympy) (list2d, syms) w c)
   <-> valid)
  /\ ((exists c,
         returns (christoffels_symengine symengine sympy_S) (list2d, syms) w c)
      <-> valid).
Proof.
move=> sndA sndB /=; rewrite /returns.
have iffA := engine_returns_iff id list2d syms sndA.
have iffB :=
  engine_returns_iff (fun temp => PyExpr (sympy_S temp)) list2d syms sndB.
split; split=> [[c] | valid].
- by rewrite call_reference => eq_c; apply/iffA; exists c.
- by have [c eq_c] := iffA.2 valid; exists c; rewrite call_reference.
- by rewrite call_alternate => eq_c; apply/iffB; exists c.
- by have [c eq_c] := iffB.2 valid; exists c; rewrite call_alternate.
Qed.

(** X7. Whenever either function returns, also with fewer symbols than
    rows, the entry (i, j, k) has the value of the sum over n below dims
    (the number of symbols) of (h[i][n] / 2) * (d g[n][j] / d s[k]
    + d g[n][k] / d s[j] - d g[j][k] / d s[n]), for h the inverse of the
    whole metric. *)
Theorem entry_formula (symbol Sym SE : Type) (V : fieldType)
    (D : symbol -> V -> V) (denS : Sym -> V) (denE : SE -> V)
    (sympy : sympy_module symbol Sym) (symengine : backend symbol Sym SE)
    (sympy_S : pyval SE -> Sym) (list2d : seq (seq (pyval Sym)))
    (syms : seq symbol) (s0 : symbol) (h : nat -> nat -> V) (w : World)
    (c : tensor Sym) :
  2%:R != 0 :> V ->
  sound D denS sympy denS -> sound D denS symengine denE ->
  (forall temp, denS (sympy_S temp) = value_of denE temp) ->
  is_inverse (size list2d) (values (value_of denS) list2d) h ->
  returns (christoffels_reference sympy) (list2d, syms) w c
  \/ returns (christoffels_symengine symengine sympy_S) (list2d, syms) w c ->
  forall i j k,
    (i < size syms)%N -> (j < size syms)%N -> (k < size syms)%N ->
    entry_value denS c i j k
    = Ok (christoffel_sum D (size syms) (values (value_of denS) list2d) h
            (nth s0 syms) i j k).
Proof.
move=> neq20 sndA sndB S_sound inv_h ret_c i j k ltid ltjd ltkd.
have [h' [_ ledN inv_h' _ ->]] // : exists h',
    [/\ square (size list2d) list2d, (size syms <= size list2d)%N,
        is_inverse (size list2d) (values (value_of denS) list2d) h',
        cubic (size syms) c
      & forall i j k,
          (i < size syms)%N -> (j < size syms)%N -> (k < size syms)%N ->
          entry_value denS c i j k
          = Ok (christoffel_sum D (size syms) (values (value_of denS) list2d)
                  h' (nth s0 syms) i j k)].
  case: ret_c; rewrite /returns ?call_reference ?call_alternate.
    exact: (reference_values neq20 sndA).
  exact: (alternate_values neq20 sndB S_sound).
congr Ok; apply: christoffel_sum_ext ledN ltid _.
exact: is_inverse_unique inv_h' inv_h.
Qed.

(** X8. A metric whose cells all have derivative 0 with respect to every
    symbol (a constant metric) gives, in either function, a tensor all of
    whose entries have the value 0. *)
Theorem constant_metric_zero (symbol Sym SE : Type) (V : fieldType)
    (D : symbol -> V -> V) (denS : Sym -> V) (denE : SE -> V)
    (sympy : sympy_module symbol Sym) (symengine : backend symbol Sym SE)
    (sympy_S : pyval SE -> Sym) (list2d : seq (seq (pyval Sym)))
    (syms : seq symbol) (w : World) (c : tensor Sym) :
  2%:R != 0 :> V ->
  sound D denS sympy denS -> sound D denS symengine denE ->
  (forall temp, denS (sympy_S temp) = value_of denE temp) ->
  (forall x a b, (a < size list2d)%N -> (b < size list2d)%N ->
     D x (values (value_of denS) list2d a b) = 0) ->
  returns (christoffels_reference sympy) (list2d, syms) w c
  \/ returns (christoffels_symengine symengine sympy_S) (list2d, syms) w c ->
  forall i j k,
    (i < size syms)%N -> (j < size syms)%N -> (k < size syms)%N ->
    entry_value denS c i j k = Ok 0.
Proof.
move=> neq20 sndA sndB S_sound D_g ret_c i j k ltid ltjd ltkd.
have [s0 _] := some_symbol ltid.
have [h [_ ledN _ _ ->]] // : exists h,
    [/\ square (size list2d) list2d, (size syms <= size list2d)%N,
        is_inverse (size list2d) (values (value_of denS) list2d) h,
        cubic (size syms) c
      & forall i j k,
          (i < size syms)%N -> (j < size syms)%N -> (k < size syms)%N ->
          entry_value denS c i j k
          = Ok (christoffel_sum D (size syms) (values (value_of denS) list2d)
                  h (nth s0 syms) i j k)].
  case: ret_c; rewrite /returns ?call_reference ?call_alternate.
    exact: (reference_values neq20 sndA).
  exact: (alternate_values neq20 sndB S_sound).
congr Ok; rewrite /christoffel_sum big_nat big1 // => n /= ltnd.
by rewrite !D_g ?(leq_trans _ ledN) // addr0 subr0 mulr0.
Qed.

Lemma stored_total (symbol Sym E : Type) (K : backend symbol Sym E)
    (store : pyval E -> pyval Sym) (V : fieldType) (D : symbol -> V -> V)
    (denS : Sym -> V) (den : E -> V) (list2d : seq (seq (pyval Sym)))
    (syms : seq symbol) (s0 : symbol) (mat_inv : seq (seq E))
    (c : seq (seq (seq (pyval Sym)))) (i j k : nat) :
  sound D denS K den ->
  inversion K list2d = Ok mat_inv ->
  christoffels K store list2d syms = Ok c ->
  (i < size syms)%N -> (j < size syms)%N -> (k < size syms)%N ->
  getitem3 c i j k = Ok (store (total K mat_inv list2d syms s0 i j k)).
Proof.
move=> snd eq_inv eq_c ltid ltjd ltkd.
have [M [M' [eq_M eq_M' _ cP]]] := christoffels_cells eq_c.
move: eq_inv; rewrite /inversion eq_M /= eq_M' => -[<-].
have [sqM sqM' _] := inv_inverse snd eq_M'.
have szM : size M = size list2d.
  by rewrite -(size_map (map den)) (Matrix_values snd eq_M) size_map.
rewrite szM in sqM sqM'; rewrite (Matrix_shape snd _ eq_M) in sqM.
have ledN : (size syms <= size list2d)%N.
  rewrite leqNgt; apply/negP => ltNd.
  by rewrite (christoffels_overlong store eq_M eq_M' sqM' sqM ltNd) in eq_c.
have [temp eq_temp ->] := cP i j k ltid ltjd ltkd.
by move: eq_temp; rewrite (entry_total K s0 sqM' sqM ledN) // => -[<-].
Qed.

(** X10. The object either function stores at (i, j, k) is built by
    exactly these operations of its back end: starting from the int 0, for
    n = 0 .. dims - 1 in turn, the product of mat_inv[i, n] / 2 with
    diff(g[n][j], s[k]) + diff(g[n][k], s[j]) - diff(g[j][k], s[n]) is
    added on the right; christoffels_symengine stores sympy.S of it. *)
Theorem stored_expression (symbol Sym SE : Type) (V : fieldType)
    (D : symbol -> V -> V) (denS : Sym -> V) (denE : SE -> V)
    (sympy : sympy_module symbol Sym) (symengine : backend symbol Sym SE)
    (sympy_S : pyval SE -> Sym) (list2d : seq (seq (pyval Sym)))
    (syms : seq symbol) (s0 : symbol) (w : World)
    (MA : seq (seq Sym)) (MB : seq (seq SE)) (cA cB : tensor Sym) :
  sound D denS sympy denS -> sound D denS symengine denE ->
  inversion sympy list2d = Ok MA -> inversion symengine list2d = Ok MB ->
  returns (christoffels_reference sympy) (list2d, syms) w cA ->
  returns (christoffels_symengine symengine sympy_S) (list2d, syms) w cB ->
  forall i j k,
    (i < size syms)%N -> (j < size syms)%N -> (k < size syms)%N ->
    getitem3 cA i j k = Ok (total sympy MA list2d syms s0 i j k)
    /\ getitem3 cB i j k
       = Ok (PyExpr (sympy_S (total symengine MB list2d syms s0 i j k))).
Proof.
move=> sndA sndB eq_MA eq_MB; rewrite /returns call_reference call_alternate.
move=> eq_cA eq_cB i j k ltid ltjd ltkd; split.
  exact: (stored_total s0 sndA eq_MA eq_cA).
exact: (stored_total s0 sndB eq_MB eq_cB).
Qed.

(* ---------------------------------------------------------------------- *)
(** ** What the driver prints                                              *)
(* ---------------------------------------------------------------------- *)

(** X9. When the driver returns, it has read the clock four times and
    printed two reports and nothing else: first the runtime of
    christoffels_reference, then that of christoffels_symengine, each the
    difference of the two readings around the call. *)
Theorem main_reports (symbol Sym SE : Type) (sympy : sympy_module symbol Sym)
    (symengine : backend symbol Sym SE) (sympy_S : pyval SE -> Sym)
    (w w' : World) (ch_reference ch_symengine : tensor Sym) :
  main sympy symengine sympy_S w = (Ok (ch_reference, ch_symengine), w') ->
  let t := wall_clock w in
  let n := ticks w in
  [/\ stdout w'
      = stdout w
        ++ [:: Report msg "christoffels_reference"
                 (PrimFloat.sub (t n.+1) (t n));
               Report msg "christoffels_symengine"
                 (PrimFloat.sub (t n.+3) (t n.+2))],
      ticks w' = n.+4
    & wall_clock w' = wall_clock w].
Proof.
rewrite /main; case: (spherical_metric _ _) => [metric|] //.
rewrite /christoffels_reference /christoffels_symengine /timeit.
rewrite /function_timer /pure /=.
case: (christoffels sympy _ _ _) => [cA|] //=.
case: (christoffels symengine _ _ _) => [cB|] //= [_ _ <-] /=.
by rewrite -!cats1 -catA.
Qed.

(* ---------------------------------------------------------------------- *)
(** ** These statements at the model                                       *)
(* ---------------------------------------------------------------------- *)

Lemma inversion_errors_propagate_witness :
  [/\ inversion Model.sympy ragged_table = Raise ValueError,
      inversion Model.symengine ragged_table = Raise ValueError,
      raises (christoffels_reference Model.sympy)
        (ragged_table, Model.coordinates) Model.world ValueError
    & raises (christoffels_symengine Model.symengine Model.sympy_S)
        (ragged_table, Model.coordinates) Model.world ValueError].
Proof.
have [refA refB] :=
  inversion_errors_propagate (sympy := Model.sympy)
    (symengine := Model.symengine) Model.sympy_S (list2d := ragged_table)
    Model.coordinates Model.world (erefl (Raise ValueError))
    (erefl (Raise ValueError)).
by split.
Defined.

Lemma model_identity2_inversion :
  exists MA MB,
    inversion Model.sympy Model.identity2 = Ok MA
    /\ inversion Model.symengine Model.identity2 = Ok MB.
Proof.
have [MA [MA' [eq_MA eq_MA' _]]] :=
  inverse_computed model_sympy_sound
    (isT : square (size Model.identity2) Model.identity2)
    (@identity2_invertible _ _ id).
have [MB [MB' [eq_MB eq_MB' _]]] :=
  inverse_computed model_fast_sound
    (isT : square (size Model.identity2) Model.identity2)
    (@identity2_invertible _ _ id).
by exists MA', MB'; rewrite /inversion eq_MA eq_MB.
Qed.

Lemma loop_raises_only_IndexError_witness :
  exists MA MB,
    [/\ inversion Model.sympy Model.identity2 = Ok MA,
        inversion Model.symengine Model.identity2 = Ok MB,
        raises (christoffels_reference Model.sympy)
          (Model.identity2, Model.coordinates) Model.world IndexError
      & IndexError = IndexError
        /\ (size Model.identity2 < size Model.coordinates)%N].
Proof.
have [MA [MB [eq_MA eq_MB]]] := model_identity2_inversion.
have raises_A : raises (christoffels_reference Model.sympy)
    (Model.identity2, Model.coordinates) Model.world IndexError.
  rewrite /raises call_reference.
  exact: (engine_overlong id model_sympy_sound (list2d := Model.identity2)
            (syms := Model.coordinates) isT (@identity2_invertible _ _ id)
            isT).
exists MA, MB; split; [exact: eq_MA | exact: eq_MB | exact: raises_A | ].
exact: (loop_raises_only_IndexError (sympy_S := Model.sympy_S)
          model_sympy_sound model_fast_sound eq_MA eq_MB (or_introl raises_A)).
Defined.

Lemma returns_iff_witness :
  ((exists c, returns (christoffels_reference Model.sympy)
                (Model.identity2, [:: Model.Cr]) Model.world c)
   <-> [/\ square 2 Model.identity2, (1 <= 2)%N
         & invertible 2 (values (value_of id) Model.identity2)])
  /\ ((exists c, returns (christoffels_symengine Model.symengine Model.sympy_S)
                   (Model.identity2, [:: Model.Cr]) Model.world c)
      <-> [/\ square 2 Model.identity2, (1 <= 2)%N
            & invertible 2 (values (value_of id) Model.identity2)]).
Proof.
exact: (returns_iff Model.sympy_S Model.identity2 [:: Model.Cr] Model.world
          model_sympy_sound model_fast_sound).
Defined.

Lemma entry_formula_witness :
  exists h c,
    [/\ is_inverse 3 (values (value_of id) Model.metric) h,
        returns (christoffels_symengine Model.symengine Model.sympy_S)
          (Model.metric, Model.coordinates) Model.world c
      & forall i j k, (i < 3)%N -> (j < 3)%N -> (k < 3)%N ->
          entry_value id c i j k
          = Ok (christoffel_sum Model.partial 3
                  (values (value_of id) Model.metric) h
                  (nth Model.Cr Model.coordinates) i j k)].
Proof.
have [_ [cB [_ ret_cB]]] := model_metric_returns.
eexists; exists cB; split=> //.
  exact: (spherical_inverse model_sympy_sound model_chart).
exact: (entry_formula Model.Cr model_two_neq0 model_sympy_sound
          model_fast_sound model_S_sound
          (spherical_inverse model_sympy_sound model_chart : is_inverse
             (size Model.metric) (values (value_of id) Model.metric) _)
          (or_intror ret_cB)).
Defined.

Lemma model_identity2_constant x a b :
  (a < 2)%N -> (b < 2)%N ->
  Model.partial x (values (value_of id) Model.identity2 a b) = 0.
Proof.
by move=> lta ltb; rewrite identity2_values // (D_bool model_calculus).
Qed.

Lemma constant_metric_zero_witness :
  exists c,
    [/\ forall x a b, (a < 2)%N -> (b < 2)%N ->
          Model.partial x (values (value_of id) Model.identity2 a b) = 0,
        returns (christoffels_reference Model.sympy)
          (Model.identity2, [:: Model.Cr; Model.Ctheta]) Model.world c
      & forall i j k, (i < 2)%N -> (j < 2)%N -> (k < 2)%N ->
          entry_value id c i j k = Ok 0].
Proof.
have [c eq_c _] :=
  engine_returns id (list2d := Model.identity2)
    (syms := [:: Model.Cr; Model.Ctheta]) model_sympy_sound isT isT
    (@identity2_invertible _ _ id).
have ret_c : returns (christoffels_reference Model.sympy)
    (Model.identity2, [:: Model.Cr; Model.Ctheta]) Model.world c.
  by rewrite /returns call_reference.
exists c; split=> //; first exact: model_identity2_constant.
exact: (constant_metric_zero model_two_neq0 model_sympy_sound model_fast_sound
          model_S_sound (list2d := Model.identity2)
          (syms := [:: Model.Cr; Model.Ctheta]) model_identity2_constant
          (or_introl ret_c)).
Defined.

Lemma main_reports_witness :
  exists ch_reference ch_symengine w',
    main Model.sympy Model.symengine Model.sympy_S Model.world
    = (Ok (ch_reference, ch_symengine), w')
    /\ [/\ stdout w'
           = [:: Report msg "christoffels_reference"
                   (PrimFloat.sub PrimFloat.zero PrimFloat.zero);
                 Report msg "christoffels_symengine"
                   (PrimFloat.sub PrimFloat.zero PrimFloat.zero)],
           ticks w' = 4%N
         & wall_clock w' = wall_clock Model.world].
Proof.
have [cA [cB [eq_main _]]] :=
  spherical_christoffels model_calculus model_sympy_sound model_chart
    model_fast_sound model_S_sound Model.world.
exists cA, cB, (main Model.sympy Model.symengine Model.sympy_S Model.world).2.
have eq_pair :
    main Model.sympy Model.symengine Model.sympy_S Model.world
    = (Ok (cA, cB),
       (main Model.sympy Model.symengine Model.sympy_S Model.world).2).
  by rewrite -eq_main -surjective_pairing.
split=> //.
exact: (main_reports eq_pair).
Defined.

Lemma model_metric_inversion :
  exists MA MB,
    inversion Model.sympy Model.metric = Ok MA
    /\ inversion Model.symengine Model.metric = Ok MB.
Proof.
have inv_g : invertible (size Model.metric) (values (value_of id) Model.metric).
  by eexists; exact: (spherical_inverse model_sympy_sound model_chart).
have [MA [MA' [eq_MA eq_MA' _]]] :=
  inverse_computed model_sympy_sound
    (isT : square (size Model.metric) Model.metric) inv_g.
have [MB [MB' [eq_MB eq_MB' _]]] :=
  inverse_computed model_fast_sound
    (isT : square (size Model.metric) Model.metric) inv_g.
by exists MA', MB'; rewrite /inversion eq_MA eq_MB.
Qed.

Lemma stored_expression_witness :
  exists MA MB cA cB,
    [/\ inversion Model.sympy Model.metric = Ok MA,
        inversion Model.symengine Model.metric = Ok MB,
        returns (christoffels_reference Model.sympy)
          (Model.metric, Model.coordinates) Model.world cA,
        returns (christoffels_symengine Model.symengine Model.sympy_S)
          (Model.metric, Model.coordinates) Model.world cB
      & forall i j k, (i < 3)%N -> (j < 3)%N -> (k < 3)%N ->
          getitem3 cA i j k
          = Ok (total Model.sympy MA Model.metric Model.coordinates
                  Model.Cr i j k)
          /\ getitem3 cB i j k
             = Ok (PyExpr (Model.sympy_S
                     (total Model.symengine MB Model.metric Model.coordinates
                        Model.Cr i j k)))].
Proof.
have [MA [MB [eq_MA eq_MB]]] := model_metric_inversion.
have [cA [cB [ret_cA ret_cB]]] := model_metric_returns.
exists MA, MB, cA, cB.
split; [exact: eq_MA | exact: eq_MB | exact: ret_cA | exact: ret_cB | ].
exact: (stored_expression Model.Cr model_sympy_sound model_fast_sound
          eq_MA eq_MB ret_cA ret_cB).
Defined.
